(** * Website_Builder: the generation relay of [backend/main.py]

    A shallow embedding of the [POST /api/generate] handler
    [generate_website]: prompt construction, the model-fallback loop and the
    HTML/CSS fragment extractor, followed by the properties of each.

    Conventions of the embedding.
    - A Python [str] is a list of code points.  Code points are restricted to
      the Latin-1 range (one [ascii] per code point); [str.lower] and
      [str.strip] are written out for that range.
    - Python exceptions are values; code that may raise returns a [result].
    - The external provider ([genai.GenerativeModel(...).generate_content])
      is a state-passing oracle over an abstract world; [print] is logging and
      is dropped; [time.sleep] is kept as an event of the trace. *)

From Stdlib Require Import Ascii String.
From Stdlib Require Import List Bool Arith Lia.
Import ListNotations.

(** ** Python strings *)

Module PyStr.

Definition str := list ascii.

(** A literal. *)
Definition lit (s : string) : str := list_ascii_of_string s.

Definition ascii_eqb (a b : ascii) : bool := Ascii.eqb a b.

(** [s.startswith(p)] *)
Fixpoint startswith (p s : str) : bool :=
  match p with
  | [] => true
  | c :: p' =>
      match s with
      | [] => false
      | d :: s' => ascii_eqb c d && startswith p' s'
      end
  end.

(** [sub in s] *)
Fixpoint contains (sub s : str) : bool :=
  startswith sub s ||
  match s with
  | [] => false
  | _ :: s' => contains sub s'
  end.

(** [s.partition(sep)] when [sep] occurs: the text before the leftmost
    occurrence and the text after it; [None] when [sep] does not occur. *)
Fixpoint partition (sep s : str) : option (str * str) :=
  if startswith sep s then Some ([], skipn (length sep) s)
  else
    match s with
    | [] => None
    | c :: s' =>
        match partition sep s' with
        | Some (a, b) => Some (c :: a, b)
        | None => None
        end
    end.

(** [s.split(sep)] for a non-empty [sep]: cut at the non-overlapping
    occurrences of [sep], leftmost first.  Every cut removes at least one
    character, so [length s] rounds are enough ([split_unfold] below). *)
Fixpoint split_rounds (n : nat) (sep s : str) : list str :=
  match n with
  | O => [s]
  | S n' =>
      match partition sep s with
      | None => [s]
      | Some (a, b) => a :: split_rounds n' sep b
      end
  end.

Definition split (sep s : str) : list str := split_rounds (length s) sep s.

(** [s.replace(old, new)] for a non-empty [old]. *)
Fixpoint replace_rounds (n : nat) (old new s : str) : str :=
  match n with
  | O => s
  | S n' =>
      match partition old s with
      | None => s
      | Some (a, b) => a ++ new ++ replace_rounds n' old new b
      end
  end.

Definition replace (old new s : str) : str :=
  replace_rounds (length s) old new s.

(** [c.isspace()] on Latin-1: TAB..CR, FS..US, SPACE, NEL, NBSP. *)
Definition isspace (c : ascii) : bool :=
  let n := nat_of_ascii c in
  ((9 <=? n) && (n <=? 13)) || ((28 <=? n) && (n <=? 32))
  || (n =? 133) || (n =? 160).

Fixpoint lstrip (s : str) : str :=
  match s with
  | [] => []
  | c :: s' => if isspace c then lstrip s' else s
  end.

Definition rstrip (s : str) : str := rev (lstrip (rev s)).

(** [s.strip()] *)
Definition strip (s : str) : str := rstrip (lstrip s).

(** [c.lower()] on Latin-1: A..Z and the accented capitals U+00C0..U+00DE
    (except the multiplication sign U+00D7) move up by 32. *)
Definition lower_char (c : ascii) : ascii :=
  let n := nat_of_ascii c in
  if ((65 <=? n) && (n <=? 90))
     || ((192 <=? n) && (n <=? 222) && negb (n =? 215))
  then ascii_of_nat (n + 32) else c.

(** [s.lower()] *)
Definition lower (s : str) : str := map lower_char s.

(** [partition] of a text that begins with a stretch [x] free of the
    separator. *)
Definition prepend (x : str) (r : option (str * str)) : option (str * str) :=
  match r with
  | Some (a, b) => Some (x ++ a, b)
  | None => None
  end.

(** No character of [x] is [c]. *)
Definition avoids (c : ascii) (x : str) : bool :=
  forallb (fun d => negb (ascii_eqb c d)) x.

(** Only blanks. *)
Definition blank (w : str) : bool := forallb isspace w.

(** The text is empty or begins with a non-blank character. *)
Definition solid_head (s : str) : bool :=
  match s with
  | [] => true
  | c :: _ => negb (isspace c)
  end.

(** An occurrence of [sep] in [s] that begins at index [i]. *)
Definition occurs_at (sep s : str) (i : nat) : Prop :=
  exists a b, s = a ++ sep ++ b /\ length a = i.

End PyStr.
Import PyStr.

Notation "` s" := (lit s%string) (at level 1, format "` s").


(** ** Exceptions, results and the data model *)

(** A Python exception raised by the provider or by the interpreter, an
    instance of [Exception] (what [except Exception] catches); [str_of e] is
    [str(e)].  Like every object of a class without [__bool__] and
    [__len__], an exception is truthy. *)
Record Exception := mkException { str_of : str }.

Inductive result (A : Type) : Type :=
| Ok (a : A)
| Raise (e : Exception).
Arguments Ok {A} a.
Arguments Raise {A} e.

Definition bind {A B} (r : result A) (k : A -> result B) : result B :=
  match r with
  | Ok a => k a
  | Raise e => Raise e
  end.

Notation "x <- r ;; k" := (bind r (fun x => k))
  (at level 61, r at next level, right associativity).

(** [class WebsiteRequest(BaseModel)] *)
Record WebsiteRequest := mkRequest { prompt : str; style : str }.

(** [class WebsiteResponse(BaseModel)] *)
Record WebsiteResponse := mkResponse {
  html : str;
  css : str;
  success : bool;
  message : str
}.

(** The three [raise HTTPException] statements of the handler. *)
Inductive raise_site :=
| AllModelsFailed     (* the [else] clause of the loop *)
| NoResponse          (* [if not response] *)
| HandlerCaught.      (* the final [except Exception] *)

(** What a call of the handler ends with. *)
Inductive outcome :=
| Return (r : WebsiteResponse)
| RaiseHTTP (site : raise_site) (status_code : nat) (detail : str)
| Propagate (e : Exception).

(** ** Prompt construction *)

Definition models_to_try : list str :=
  [ `"gemini-2.0-flash-exp";
    `"gemini-1.5-flash-latest";
    `"gemini-1.5-flash";
    `"gemini-1.5-pro-latest" ].

Definition style_descriptions : list (str * str) :=
  [ (`"modern",
     `"with bold vibrant colors (#667eea to #764ba2 gradients), large typography, card-based layouts, lots of whitespace, glassmorphism effects");
    (`"minimal",
     `"with elegant black and white palette, ultra-clean layout, generous negative space, sophisticated typography, accent color (#0066ff)");
    (`"professional",
     `"with corporate blue gradients (#4facfe to #00f2fe), structured layout, polished cards, business-appropriate design");
    (`"creative",
     `"with bold rainbow gradients (#f093fb to #f5576c), playful animations, asymmetric layouts, artistic flair, vibrant energy") ].

Definition str_eq_dec : forall a b : str, {a = b} + {a <> b} :=
  list_eq_dec ascii_dec.

(** [d.get(key, default)] on a dict given by its items. *)
Fixpoint dict_get (d : list (str * str)) (key default : str) : str :=
  match d with
  | [] => default
  | (k, v) :: d' => if str_eq_dec k key then v else dict_get d' key default
  end.

Definition style_desc (request : WebsiteRequest) : str :=
  dict_get style_descriptions (style request) [].

Definition prompt_tail : str :=
  `". Make it visually impressive with rich CSS styling, beautiful colors, and modern design. NO external images - use colored divs and gradients for visual elements.".

(** The f-string of line 104. *)
Definition user_prompt (request : WebsiteRequest) : str :=
  `"Create a stunning " ++ style request ++ `" style website "
    ++ style_desc request ++ `": " ++ prompt request ++ prompt_tail.

(** ** The model-fallback loop *)

Definition transient_keywords : list str :=
  [ `"503"; `"overloaded"; `"unavailable"; `"not found"; `"404" ].

(** [any(keyword in error_str.lower() for keyword in [...])] *)
Definition is_transient (error_str : str) : bool :=
  existsb (fun keyword => contains keyword (lower error_str))
          transient_keywords.

(** The provider.  [generate_content w model_name user_prompt] is one
    attempt, [genai.GenerativeModel(model_name, system_instruction)
    .generate_content(user_prompt, generation_config)], made in world [w]:
    it returns a response object or raises, and leaves a new world.  The
    system instruction and the generation config are constants of the handler
    and belong to the oracle.  [text r] is [r.text], which the library may
    refuse with an exception.  A response object is truthy, as every object
    of a class without [__bool__] and [__len__] is. *)
Class Provider (World Response : Type) := {
  generate_content : World -> str -> str -> (Exception + Response) * World;
  text : Response -> result str
}.

(** What the handler does that a provider or a clock can observe. *)
Inductive event :=
| Call (model_name : str)
| Sleep.                      (* [time.sleep(0.5)] *)

(** How the [for] statement is left. *)
Inductive loop_exit :=
| Break
| Else                        (* the list is exhausted: the [else] clause runs *)
| Raised (e : Exception).     (* [raise e] *)

Section Handler.

Context {World Response : Type} {P : Provider World Response}.

(** The variables of the handler that the loop assigns, with the trace and
    the world. *)
Record loop_state := mkState {
  response : option Response;
  last_error : option Exception;
  trace : list event;
  world : World
}.

Definition init_state (w : World) : loop_state :=
  {| response := None; last_error := None; trace := []; world := w |}.

(** The assignments of one iteration: the attempt on [model_name] returned
    [r] (then [break]); it raised [e] (then [raise e]); it raised [e] and the
    loop paused before the next candidate. *)
Definition succeeded (st : loop_state) (model_name : str) (r : Response)
    (w : World) : loop_state :=
  {| response := Some r;
     last_error := last_error st;
     trace := trace st ++ [Call model_name];
     world := w |}.

Definition failed (st : loop_state) (model_name : str) (e : Exception)
    (w : World) : loop_state :=
  {| response := response st;
     last_error := Some e;
     trace := trace st ++ [Call model_name];
     world := w |}.

Definition paused (st : loop_state) (model_name : str) (e : Exception)
    (w : World) : loop_state :=
  {| response := response st;
     last_error := Some e;
     trace := trace st ++ [Call model_name; Sleep];
     world := w |}.

(** [for model_name in models: try: ... except Exception as e: ...] *)
Fixpoint for_loop (models : list str) (user_prompt : str) (st : loop_state)
  : loop_exit * loop_state :=
  match models with
  | [] => (Else, st)
  | model_name :: rest =>
      match generate_content (world st) model_name user_prompt with
      | (inr r, w) => (Break, succeeded st model_name r w)
      | (inl e, w) =>
          let error_str := str_of e in
          if is_transient error_str then
            for_loop rest user_prompt (paused st model_name e w)
          else
            (Raised e, failed st model_name e w)
      end
  end.

(** ** The fragment extractor *)

Definition IndexError : Exception := mkException `"list index out of range".

(** [parts[i]] *)
Definition index (parts : list str) (i : nat) : result str :=
  match nth_error parts i with
  | Some x => Ok x
  | None => Raise IndexError
  end.

Definition fence : str := `"```".

(** [section.split(tag)[1].split("```")[0].strip()] *)
Definition fenced (tag section : str) : result str :=
  after <- index (split tag section) 1 ;;
  inside <- index (split fence after) 0 ;;
  Ok (strip inside).

(** Lines 164-166: the two sections cut at the stylesheet marker. *)
Definition sections (content : str) : result (str * str) :=
  let parts := split `"CSS:" content in
  p0 <- index parts 0 ;;
  let html_section := strip (replace `"HTML:" [] p0) in
  p1 <- index parts 1 ;;
  let css_section := strip p1 in
  Ok (html_section, css_section).

(** Lines 160-189. *)
Definition extract (content : str) : result (str * str) :=
  if contains `"HTML:" content && contains `"CSS:" content then
    secs <- sections content ;;
    let '(html_section, css_section) := secs in
    html <- (if contains `"```html" html_section then
               fenced `"```html" html_section
             else if contains fence html_section then
               fenced fence html_section
             else Ok html_section) ;;
    css <- (if contains `"```css" css_section then
              fenced `"```css" css_section
            else if contains fence css_section then
              fenced fence css_section
            else Ok css_section) ;;
    Ok (html, css)
  else
    html <- (if contains `"```html" content then
               fenced `"```html" content
             else Ok []) ;;
    css <- (if contains `"```css" content then
              fenced `"```css" content
            else Ok []) ;;
    let html := match html with [] => content | _ => html end in
    Ok (html, css).

(** ** The handler *)

Definition unavailable_detail : str :=
  `"All Gemini models are currently unavailable. Please try again in a few moments. Last error: ".

(** Lines 151-202: after the loop. *)
Definition after_loop (st : loop_state) : outcome :=
  match response st with
  | None => RaiseHTTP NoResponse 500 `"Failed to generate content"
  | Some r =>
      match (content <- text r ;; extract content) with
      | Ok (html, css) =>
          Return {| html := html; css := css; success := true;
                    message := `"Website generated successfully" |}
      | Raise e => RaiseHTTP HandlerCaught 500 (str_of e)
      end
  end.

(** Lines 143-202: what follows the [for] statement, by the way it is left. *)
Definition finish (ex : loop_exit) (st : loop_state) : outcome :=
  match ex with
  | Raised e => Propagate e
  | Else =>
      match last_error st with
      | Some e =>
          RaiseHTTP AllModelsFailed 503 (unavailable_detail ++ str_of e)
      | None => after_loop st
      end
  | Break => after_loop st
  end.

(** The handler over a list of candidates. *)
Definition generate_with (models : list str) (request : WebsiteRequest)
    (w : World) : outcome * loop_state :=
  let '(ex, st) := for_loop models (user_prompt request) (init_state w) in
  (finish ex st, st).

(** [POST /api/generate] *)
Definition generate_website (request : WebsiteRequest) (w : World)
  : outcome * loop_state :=
  generate_with models_to_try request w.

(** The model names of the attempts of a trace, in the order made. *)
Fixpoint calls (t : list event) : list str :=
  match t with
  | [] => []
  | Call m :: t' => m :: calls t'
  | Sleep :: t' => calls t'
  end.

(** [transient_run up models st errs st']: from [st], every candidate of
    [models] is attempted in turn and fails with a transient error; [errs]
    are the errors in order and [st'] is the state after the last pause. *)
Inductive transient_run (up : str)
  : list str -> loop_state -> list Exception -> loop_state -> Prop :=
| run_nil st : transient_run up [] st [] st
| run_cons m rest st e w errs st' :
    generate_content (world st) m up = (inl e, w) ->
    is_transient (str_of e) = true ->
    transient_run up rest (paused st m e w) errs st' ->
    transient_run up (m :: rest) st (e :: errs) st'.

End Handler.

(** A scripted provider: the [n]-th attempt of a request gets the [n]-th
    entry of the script, a raised exception or the text of a response; the
    world counts the attempts. *)
Definition scripted (script : list (Exception + str)) : Provider nat str :=
  {| generate_content := fun n _ _ =>
       (nth n script (inl (mkException `"script exhausted")), S n);
     text := fun r => Ok r |}.

(** Errors as the provider words them, and a well-formed answer. *)
Definition overloaded_503 : Exception :=
  mkException `"503 The model is overloaded. Please try again later.".

Definition not_found_404 : Exception :=
  mkException `"404 models/gemini-1.5-flash-latest is not found for API version v1beta".

Definition unavailable_error : Exception :=
  mkException `"Service Unavailable".

Definition invalid_key_400 : Exception :=
  mkException `"400 API key not valid. Please pass a valid API key.".

Definition bakery_answer : str :=
  `"HTML:```html<h1>Bakery</h1>```CSS:```cssh1 { color: brown; }```".

Definition bakery : WebsiteRequest := mkRequest `"a bakery" `"modern".

(** A provider whose response object refuses to give its text, as the
    library does for a blocked answer. *)
Definition blocked_error : Exception :=
  mkException `"The response was blocked; response.text is not available.".

Definition refusing : Provider nat str :=
  {| generate_content := fun n _ _ => (inr [], S n);
     text := fun _ => Raise blocked_error |}.

(** ** Vocabulary of the statements *)

Definition HTML_marker : str := `"HTML:".
Definition CSS_marker : str := `"CSS:".

(** [closes h]: the text [h] that follows an opening fence is closed by the
    first fence after it, i.e. no fence begins inside [h]. *)
Definition closes (h : str) : bool := negb (contains fence (h ++ `"``")).

(** [HTML:] then an html-tagged fenced block, [CSS:] then a css-tagged fenced
    block; [w0] .. [w4] are the blanks (indentation, line ends) around them,
    [h] and [c] the interiors of the two fences. *)
Definition documented (w0 w1 h w2 w3 c w4 : str) : str :=
  w0 ++ HTML_marker ++ w1 ++ `"```html" ++ h ++ fence ++ w2
     ++ CSS_marker ++ w3 ++ `"```css" ++ c ++ fence ++ w4.

(** The text of [documented] before the stylesheet marker, and after it. *)
Definition doc_before (w0 w1 h w2 : str) : str :=
  w0 ++ HTML_marker ++ w1 ++ `"```html" ++ h ++ fence ++ w2.

Definition doc_after (w3 c w4 : str) : str :=
  w3 ++ `"```css" ++ c ++ fence ++ w4.

Definition known_styles : list str :=
  [ `"modern"; `"minimal"; `"professional"; `"creative" ].

(** The style table as a case distinction on the keyword: four keywords
    with their descriptor, every other keyword with the empty one. *)
Definition descriptor_of (s : str) : str :=
  if str_eq_dec s `"modern" then
    `"with bold vibrant colors (#667eea to #764ba2 gradients), large typography, card-based layouts, lots of whitespace, glassmorphism effects"
  else if str_eq_dec s `"minimal" then
    `"with elegant black and white palette, ultra-clean layout, generous negative space, sophisticated typography, accent color (#0066ff)"
  else if str_eq_dec s `"professional" then
    `"with corporate blue gradients (#4facfe to #00f2fe), structured layout, polished cards, business-appropriate design"
  else if str_eq_dec s `"creative" then
    `"with bold rainbow gradients (#f093fb to #f5576c), playful animations, asymmetric layouts, artistic flair, vibrant energy"
  else [].

(** [same_letter c d]: [d] is the character [c] or, when [c] is a small
    letter a-z, its capital. *)
Definition same_letter (c d : ascii) : Prop :=
  d = c \/
  (97 <= nat_of_ascii c /\ nat_of_ascii c <= 122 /\
   nat_of_ascii d + 32 = nat_of_ascii c).

(** [variant] spells [keyword] in some mix of small and capital letters. *)
Definition case_variant (keyword variant : str) : Prop :=
  Forall2 same_letter keyword variant.

(** The two tagged fence openers. *)
Definition html_tag : str := `"```html".
Definition css_tag : str := `"```css".

(** The two-marker format with plain fences instead of tagged ones. *)
Definition plain_fenced (w0 w1 h w2 w3 c w4 : str) : str :=
  w0 ++ HTML_marker ++ w1 ++ fence ++ h ++ fence ++ w2
     ++ CSS_marker ++ w3 ++ fence ++ c ++ fence ++ w4.

(** The documented format cut short inside the css block, as an answer that
    ran into the output limit is: the css fence is never closed. *)
Definition truncated (w0 w1 h w2 w3 c : str) : str :=
  w0 ++ HTML_marker ++ w1 ++ html_tag ++ h ++ fence ++ w2
     ++ CSS_marker ++ w3 ++ css_tag ++ c.

(** The events of attempts that each fail with a transient error. *)
Definition pauses (models : list str) : list event :=
  flat_map (fun m => [Call m; Sleep]) models.

(** The number of half-second pauses of a trace. *)
Fixpoint sleeps (t : list event) : nat :=
  match t with
  | [] => 0
  | Sleep :: t' => S (sleeps t')
  | Call _ :: t' => sleeps t'
  end.

(** * Properties *)

(** ** Substring search *)

Module PyStrFacts.

Lemma startswith_app (p t : str) : startswith p (p ++ t) = true.
Proof.
  induction p as [|c p IH]; simpl; [reflexivity|].
  unfold ascii_eqb. now rewrite Ascii.eqb_refl.
Qed.

Lemma startswith_inv (p s : str) :
  startswith p s = true -> s = p ++ skipn (length p) s.
Proof.
  revert s. induction p as [|c p IH]; intros s H; simpl in *.
  - reflexivity.
  - destruct s as [|d s]; [discriminate|].
    apply andb_true_iff in H as [Hc Hp].
    apply Ascii.eqb_eq in Hc. subst d. simpl. f_equal. now apply IH.
Qed.

Lemma startswith_spec (p s : str) :
  startswith p s = true <-> exists t, s = p ++ t.
Proof.
  split.
  - intros H. eexists. now apply startswith_inv.
  - intros [t ->]. apply startswith_app.
Qed.

Lemma startswith_nil_r (p : str) : p <> [] -> startswith p [] = false.
Proof. destruct p; [congruence | reflexivity]. Qed.

(** Only the first [length p] characters of the text matter. *)
Lemma startswith_firstn (p s : str) :
  startswith p s = startswith p (firstn (length p) s).
Proof.
  revert s. induction p as [|c p IH]; intros [|d s]; simpl; try reflexivity.
  now rewrite <- IH.
Qed.

Lemma partition_sound (sep s a b : str) :
  partition sep s = Some (a, b) -> s = a ++ sep ++ b.
Proof.
  revert a b. induction s as [|c s IH]; intros a b H; simpl in H.
  - destruct (startswith sep []) eqn:E; [|discriminate].
    inversion H; subst. simpl. now apply startswith_inv in E.
  - destruct (startswith sep (c :: s)) eqn:E.
    + inversion H; subst. simpl. now apply startswith_inv in E.
    + destruct (partition sep s) as [[a' b']|]; [|discriminate].
      inversion H; subst. simpl. f_equal. now apply IH.
Qed.

(** The occurrence found is the leftmost one. *)
Lemma partition_leftmost (sep s a b : str) :
  partition sep s = Some (a, b) ->
  forall i, i < length a -> startswith sep (skipn i s) = false.
Proof.
  revert a b. induction s as [|c s IH]; intros a b H i Hi; simpl in H.
  - destruct (startswith sep []); [|discriminate].
    inversion H; subst. simpl in Hi. lia.
  - destruct (startswith sep (c :: s)) eqn:E.
    + inversion H; subst. simpl in Hi. lia.
    + destruct (partition sep s) as [[a' b']|] eqn:E'; [|discriminate].
      inversion H; subst. destruct i as [|i]; simpl; [exact E|].
      apply (IH a' b eq_refl). simpl in Hi. lia.
Qed.

Lemma partition_startswith (sep s : str) :
  startswith sep s = true -> partition sep s = Some ([], skipn (length sep) s).
Proof. intros H. destruct s; simpl partition; now rewrite H. Qed.

Lemma partition_here (sep t : str) : partition sep (sep ++ t) = Some ([], t).
Proof.
  rewrite partition_startswith by apply startswith_app.
  now rewrite skipn_app, skipn_all, Nat.sub_diag.
Qed.

Lemma partition_cons (sep : str) (c : ascii) (s : str) :
  startswith sep (c :: s) = false ->
  partition sep (c :: s) =
    match partition sep s with
    | Some (a, b) => Some (c :: a, b)
    | None => None
    end.
Proof. intros H. simpl partition. now rewrite H. Qed.

(** [partition] fails exactly when [in] does. *)
Lemma partition_None (sep s : str) :
  partition sep s = None <-> contains sep s = false.
Proof.
  induction s as [|c s IH]; simpl.
  - destruct (startswith sep []); simpl; split; congruence.
  - destruct (startswith sep (c :: s)); simpl; [split; congruence|].
    rewrite <- IH. destruct (partition sep s) as [[a b]|]; split; congruence.
Qed.

Lemma contains_partition (sep s : str) :
  contains sep s = true -> exists a b, partition sep s = Some (a, b).
Proof.
  intros H. destruct (partition sep s) as [[a b]|] eqn:E; [eauto|].
  apply partition_None in E. congruence.
Qed.

Lemma contains_cons (sub : str) (c : ascii) (s : str) :
  contains sub (c :: s) = startswith sub (c :: s) || contains sub s.
Proof. reflexivity. Qed.

Lemma contains_startswith (sub s : str) :
  startswith sub s = true -> contains sub s = true.
Proof. intros H. destruct s; simpl contains; now rewrite H. Qed.

Lemma contains_app (a sub b : str) : contains sub (a ++ sub ++ b) = true.
Proof.
  induction a as [|c a IH].
  - apply contains_startswith. apply (startswith_app sub b).
  - simpl. rewrite IH. apply orb_true_r.
Qed.

(** [sub in s] holds exactly when [s] has an occurrence of [sub]. *)
Lemma contains_spec (sub s : str) :
  contains sub s = true <-> exists a b, s = a ++ sub ++ b.
Proof.
  split.
  - intros H. destruct (contains_partition _ _ H) as (a & b & E).
    exists a, b. now apply partition_sound.
  - intros (a & b & ->). apply contains_app.
Qed.

Lemma contains_occurs (sub s : str) :
  contains sub s = true <-> exists i, occurs_at sub s i.
Proof.
  rewrite contains_spec. unfold occurs_at. split.
  - intros (a & b & E). exists (length a), a, b. auto.
  - intros (i & a & b & E & _). eauto.
Qed.

Lemma partition_length (sep s a b : str) :
  partition sep s = Some (a, b) ->
  length s = length a + length sep + length b.
Proof.
  intros H. apply partition_sound in H. subst.
  rewrite !length_app. lia.
Qed.

(** A leftmost occurrence determines the result of [partition]. *)
Lemma partition_complete (sep a b : str) :
  (forall i, i < length a -> startswith sep (skipn i (a ++ sep ++ b)) = false) ->
  partition sep (a ++ sep ++ b) = Some (a, b).
Proof.
  induction a as [|c a IH]; intros H.
  - apply (partition_here sep b).
  - change ((c :: a) ++ sep ++ b) with (c :: (a ++ sep ++ b)).
    rewrite partition_cons.
    + rewrite IH; [reflexivity|]. intros i Hi.
      apply (H (S i)). simpl. lia.
    + apply (H 0). simpl. lia.
Qed.

(** *** [split] and [replace]: the rounds are enough *)

Lemma partition_nil_r (sep : str) : sep <> [] -> partition sep [] = None.
Proof. intros H. simpl. now rewrite startswith_nil_r. Qed.

Lemma split_rounds_enough (sep : str) :
  sep <> [] ->
  forall n m s, length s <= n -> length s <= m ->
    split_rounds n sep s = split_rounds m sep s.
Proof.
  intros Hsep. induction n as [|n IH]; intros m s Hn Hm.
  - destruct s; [|simpl in Hn; lia].
    destruct m; simpl; [reflexivity|]. now rewrite startswith_nil_r.
  - destruct m as [|m].
    + destruct s; [|simpl in Hm; lia].
      simpl. now rewrite startswith_nil_r.
    + simpl. destruct (partition sep s) as [[a b]|] eqn:E; [|reflexivity].
      apply partition_length in E. f_equal.
      destruct sep; [congruence|]. simpl in E. apply IH; lia.
Qed.

Lemma split_unfold (sep s : str) :
  sep <> [] ->
  split sep s =
    match partition sep s with
    | None => [s]
    | Some (a, b) => a :: split sep b
    end.
Proof.
  intros Hsep. unfold split. destruct s as [|c s].
  - simpl. now rewrite startswith_nil_r.
  - cbn [length split_rounds].
    destruct (partition sep (c :: s)) as [[a b]|] eqn:E; [|reflexivity].
    f_equal. apply partition_length in E.
    destruct sep; [congruence|]. simpl in E.
    apply split_rounds_enough; [congruence | lia | lia].
Qed.

Lemma replace_rounds_enough (old new : str) :
  old <> [] ->
  forall n m s, length s <= n -> length s <= m ->
    replace_rounds n old new s = replace_rounds m old new s.
Proof.
  intros Hold. induction n as [|n IH]; intros m s Hn Hm.
  - destruct s; [|simpl in Hn; lia].
    destruct m; simpl; [reflexivity|]. now rewrite startswith_nil_r.
  - destruct m as [|m].
    + destruct s; [|simpl in Hm; lia].
      simpl. now rewrite startswith_nil_r.
    + simpl. destruct (partition old s) as [[a b]|] eqn:E; [|reflexivity].
      apply partition_length in E. do 2 f_equal.
      destruct old; [congruence|]. simpl in E. apply IH; lia.
Qed.

Lemma replace_unfold (old new s : str) :
  old <> [] ->
  replace old new s =
    match partition old s with
    | None => s
    | Some (a, b) => a ++ new ++ replace old new b
    end.
Proof.
  intros Hold. unfold replace. destruct s as [|c s].
  - simpl. now rewrite startswith_nil_r.
  - cbn [length replace_rounds].
    destruct (partition old (c :: s)) as [[a b]|] eqn:E; [|reflexivity].
    do 2 f_equal. apply partition_length in E.
    destruct old; [congruence|]. simpl in E.
    apply replace_rounds_enough; [congruence | lia | lia].
Qed.

(** [split] never returns the empty list, and returns at least two parts
    when the separator occurs. *)
Lemma split_head (sep s : str) : exists p rest, split sep s = p :: rest.
Proof.
  unfold split. destruct (length s); simpl; [eauto|].
  destruct (partition sep s) as [[a b]|]; eauto.
Qed.

Lemma split_two (sep s : str) :
  sep <> [] -> contains sep s = true ->
  exists p0 p1 rest, split sep s = p0 :: p1 :: rest.
Proof.
  intros Hsep H. destruct (contains_partition _ _ H) as (a & b & E).
  rewrite split_unfold, E by assumption.
  destruct (split_head sep b) as (p & rest & ->). eauto.
Qed.

(** *** Searching in a concatenation *)

(** A stretch without the first character of [sep] is stepped over. *)
Lemma partition_avoid (c : ascii) (sep x y : str) :
  avoids c x = true ->
  partition (c :: sep) (x ++ y) = prepend x (partition (c :: sep) y).
Proof.
  induction x as [|d x IH]; intros H.
  - simpl. now destruct (partition (c :: sep) y) as [[a b]|].
  - simpl in H. apply andb_true_iff in H as [Hd Hx].
    change ((d :: x) ++ y) with (d :: (x ++ y)).
    rewrite partition_cons.
    + rewrite IH by assumption.
      now destruct (partition (c :: sep) y) as [[a b]|].
    + simpl. apply negb_true_iff in Hd. now rewrite Hd.
Qed.

Lemma startswith_straddle (sep x : str) (c : ascii) (y : str) :
  startswith sep (x ++ c :: y) = true ->
  startswith sep x = true \/ In c sep.
Proof.
  revert x. induction sep as [|d sep IH]; intros x H; [now left|].
  destruct x as [|e x]; simpl in H.
  - apply andb_true_iff in H as [Hd _]. apply Ascii.eqb_eq in Hd.
    right. now left.
  - apply andb_true_iff in H as [Hd Hs]. destruct (IH _ Hs) as [Hx|Hin].
    + left. simpl. now rewrite Hd, Hx.
    + right. now right.
Qed.

(** A stretch free of [sep] is stepped over when the character that follows
    it is not one of [sep]. *)
Lemma partition_free (sep x : str) (c : ascii) (y : str) :
  contains sep x = false -> ~ In c sep ->
  partition sep (x ++ c :: y) = prepend x (partition sep (c :: y)).
Proof.
  intros Hx Hc. induction x as [|d x IH].
  - simpl app. now destruct (partition sep (c :: y)) as [[a b]|].
  - simpl in Hx. apply orb_false_iff in Hx as [Hs Hx].
    change ((d :: x) ++ c :: y) with (d :: (x ++ c :: y)).
    rewrite partition_cons.
    + rewrite IH by assumption.
      now destruct (partition sep (c :: y)) as [[a b]|].
    + destruct (startswith sep (d :: x ++ c :: y)) eqn:E; [|reflexivity].
      destruct (startswith_straddle sep (d :: x) c y E); [congruence|tauto].
Qed.

(** *** Whitespace *)

Lemma blank_avoids (c : ascii) (w : str) :
  isspace c = false -> blank w = true -> avoids c w = true.
Proof.
  intros Hc. induction w as [|d w IH]; simpl; [reflexivity|].
  intros H. apply andb_true_iff in H as [Hd Hw].
  rewrite IH by assumption. rewrite andb_true_r.
  apply negb_true_iff. destruct (ascii_eqb c d) eqn:E; [|reflexivity].
  apply Ascii.eqb_eq in E. congruence.
Qed.

Lemma lstrip_blank (w x : str) : blank w = true -> lstrip (w ++ x) = lstrip x.
Proof.
  induction w as [|c w IH]; simpl; [reflexivity|].
  intros H. apply andb_true_iff in H as [Hc Hw]. now rewrite Hc, IH.
Qed.

Lemma lstrip_solid (c : ascii) (x : str) :
  isspace c = false -> lstrip (c :: x) = c :: x.
Proof. intros H. simpl. now rewrite H. Qed.

Lemma blank_rev (w : str) : blank (rev w) = blank w.
Proof.
  unfold blank. induction w as [|c w IH]; simpl; [reflexivity|].
  rewrite forallb_app, IH. simpl. rewrite andb_true_r. apply andb_comm.
Qed.

Lemma rstrip_blank (x w : str) : blank w = true -> rstrip (x ++ w) = rstrip x.
Proof.
  intros H. unfold rstrip. rewrite rev_app_distr, lstrip_blank; [reflexivity|].
  now rewrite blank_rev.
Qed.

Lemma rstrip_solid (x : str) (c : ascii) :
  isspace c = false -> rstrip (x ++ [c]) = x ++ [c].
Proof.
  intros H. unfold rstrip. rewrite rev_app_distr. simpl rev at 2.
  simpl app at 1. rewrite lstrip_solid by assumption.
  change (c :: rev x) with ([c] ++ rev x).
  now rewrite rev_app_distr, rev_involutive.
Qed.

(** Trimming a text that starts and ends with a non-blank character and is
    surrounded by blanks gives the text back. *)
Lemma strip_core (w1 w2 m : str) (c1 c2 : ascii) :
  blank w1 = true -> blank w2 = true ->
  isspace c1 = false -> isspace c2 = false ->
  strip (w1 ++ (c1 :: m ++ [c2]) ++ w2) = c1 :: m ++ [c2].
Proof.
  intros H1 H2 Hc1 Hc2. unfold strip.
  rewrite lstrip_blank by assumption.
  change ((c1 :: m ++ [c2]) ++ w2) with (c1 :: (m ++ [c2]) ++ w2).
  rewrite lstrip_solid by assumption.
  change (c1 :: (m ++ [c2]) ++ w2) with ((c1 :: m ++ [c2]) ++ w2).
  rewrite rstrip_blank by assumption.
  change (c1 :: m ++ [c2]) with ((c1 :: m) ++ [c2]).
  now apply rstrip_solid.
Qed.

End PyStrFacts.
Import PyStrFacts.

(** ** Fenced blocks *)

Module FenceFacts.

Lemma startswith_pattern_app (p q s : str) :
  startswith (p ++ q) s = true -> startswith p s = true.
Proof.
  revert s. induction p as [|c p IH]; intros s H; [reflexivity|].
  destruct s as [|d s]; simpl in *; [discriminate|].
  apply andb_true_iff in H as [Hc Hs]. rewrite Hc. now apply IH.
Qed.

Lemma fence_straddle (c : ascii) (t b : str) :
  startswith fence ((c :: t) ++ fence ++ b)
  = startswith fence ((c :: t) ++ `"``").
Proof. destruct t as [|d [|e t]]; reflexivity. Qed.

Lemma closes_cons (c : ascii) (h : str) :
  closes (c :: h) = true ->
  startswith fence ((c :: h) ++ `"``") = false /\ closes h = true.
Proof.
  unfold closes. rewrite negb_true_iff.
  change ((c :: h) ++ `"``") with (c :: (h ++ `"``")). rewrite contains_cons.
  intros H. apply orb_false_iff in H as [H1 H2]. split; [exact H1|].
  now rewrite H2.
Qed.

(** The closing fence is where [split] cuts. *)
Lemma closes_partition (h b : str) :
  closes h = true -> partition fence (h ++ fence ++ b) = Some (h, b).
Proof.
  induction h as [|c h IH]; intros H.
  - apply (partition_here fence b).
  - apply closes_cons in H as [H1 H2].
    change ((c :: h) ++ fence ++ b) with (c :: (h ++ fence ++ b)).
    rewrite partition_cons.
    + now rewrite IH.
    + change (c :: h ++ fence ++ b) with ((c :: h) ++ fence ++ b).
      now rewrite fence_straddle.
Qed.

(** No tagged fence begins inside the block. *)
Lemma closes_no_tag (q h : str) :
  q <> [] -> closes h = true -> contains (fence ++ q) (h ++ fence) = false.
Proof.
  intros Hq. induction h as [|c h IH]; intros H.
  - destruct q as [|d q]; [congruence|]. reflexivity.
  - apply closes_cons in H as [H1 H2].
    change ((c :: h) ++ fence) with (c :: (h ++ fence)).
    rewrite contains_cons, (IH H2), orb_false_r.
    destruct (startswith (fence ++ q) (c :: h ++ fence)) eqn:E; [|reflexivity].
    apply startswith_pattern_app in E.
    rewrite <- (app_nil_r fence) in E at 2.
    change (c :: h ++ fence ++ []) with ((c :: h) ++ fence ++ []) in E.
    rewrite fence_straddle in E. congruence.
Qed.

(** A block [```tag h ```] yields the trimmed [h]. *)
Lemma fenced_block (q h : str) :
  q <> [] -> closes h = true ->
  fenced (fence ++ q) ((fence ++ q) ++ h ++ fence) = Ok (strip h).
Proof.
  intros Hq H. unfold fenced.
  assert (Hsep : fence ++ q <> []) by discriminate.
  rewrite split_unfold, partition_here by assumption.
  rewrite split_unfold by assumption.
  assert (E : partition (fence ++ q) (h ++ fence) = None)
    by now apply partition_None, closes_no_tag.
  assert (E' : split fence (h ++ fence) = h :: split fence []).
  { rewrite split_unfold by discriminate.
    replace (h ++ fence) with (h ++ fence ++ []) by now rewrite app_nil_r.
    now rewrite closes_partition. }
  rewrite E. cbn [index nth_error bind]. rewrite E'. reflexivity.
Qed.

Lemma strip_block (w1 w2 q h : str) :
  blank w1 = true -> blank w2 = true ->
  strip (w1 ++ ((fence ++ q) ++ h ++ fence) ++ w2)
  = (fence ++ q) ++ h ++ fence.
Proof.
  intros H1 H2.
  assert (E : (fence ++ q) ++ h ++ fence
              = "`"%char :: (`"``" ++ q ++ h ++ `"``") ++ ["`"%char]).
  { cbn. do 3 f_equal. rewrite <- !app_assoc. reflexivity. }
  rewrite E. now apply strip_core.
Qed.

End FenceFacts.
Import FenceFacts.

(** ** The fragment extractor *)

Module ExtractorFacts.

Lemma fenced_ok (tag section : str) :
  tag <> [] -> contains tag section = true ->
  exists x, fenced tag section = Ok x.
Proof.
  intros Htag H. unfold fenced.
  destruct (split_two tag section Htag H) as (p0 & p1 & rest & ->).
  cbn [index nth_error bind].
  destruct (split_head fence p1) as (i & rest' & ->).
  cbn [index nth_error bind]. eauto.
Qed.

Lemma sections_ok (content : str) :
  contains `"CSS:" content = true ->
  exists html_section css_section,
    sections content = Ok (html_section, css_section).
Proof.
  intros H. unfold sections.
  destruct (split_two `"CSS:" content) as (p0 & p1 & rest & ->);
    [discriminate | assumption |].
  cbn [index nth_error bind]. eauto.
Qed.

(** The tagged-else-plain-else-verbatim choice of lines 169-181. *)
Lemma block_choice_ok (tag section : str) :
  tag <> [] ->
  exists x,
    (if contains tag section then fenced tag section
     else if contains fence section then fenced fence section
     else Ok section) = Ok x.
Proof.
  intros Htag. destruct (contains tag section) eqn:E1.
  - now apply fenced_ok.
  - destruct (contains fence section) eqn:E2; [|eauto].
    apply fenced_ok; [discriminate | assumption].
Qed.

Lemma startswith_occurs (sep s : str) (i : nat) :
  i <= length s -> startswith sep (skipn i s) = true -> occurs_at sep s i.
Proof.
  intros Hi H. apply startswith_inv in H.
  exists (firstn i s), (skipn (length sep) (skipn i s)). split.
  - now rewrite <- H, firstn_skipn.
  - rewrite length_firstn. lia.
Qed.

(** [partition] cuts at the occurrence before which none begins. *)
Lemma partition_first (sep a b : str) :
  (forall i, i < length a -> ~ occurs_at sep (a ++ sep ++ b) i) ->
  partition sep (a ++ sep ++ b) = Some (a, b).
Proof.
  intros H. apply partition_complete. intros i Hi.
  destruct (startswith sep (skipn i (a ++ sep ++ b))) eqn:E; [|reflexivity].
  exfalso. apply (H i Hi). apply startswith_occurs; [|assumption].
  rewrite length_app. lia.
Qed.

Lemma partition_absent (sep s : str) :
  (forall i, ~ occurs_at sep s i) -> partition sep s = None.
Proof.
  intros H. apply partition_None.
  destruct (contains sep s) eqn:E; [|reflexivity].
  apply contains_occurs in E as [i Hi]. now destruct (H i).
Qed.

End ExtractorFacts.
Import ExtractorFacts.

(** C9. For every raw text the extractor returns a pair (markup, stylesheet):
    no [split(...)[i]] of the extraction is out of range, so no exception
    reaches the handler's [except] from these steps. *)
Theorem extract_total (content : str) :
  exists html css, extract content = Ok (html, css).
Proof.
  unfold extract.
  destruct (contains `"HTML:" content && contains `"CSS:" content) eqn:E.
  - apply andb_true_iff in E as [_ Hcss].
    destruct (sections_ok content Hcss) as (hs & cs & ->).
    cbn [bind].
    destruct (block_choice_ok `"```html" hs) as (h & ->); [discriminate|].
    destruct (block_choice_ok `"```css" cs) as (c & ->); [discriminate|].
    cbn [bind]. eauto.
  - destruct (contains `"```html" content) eqn:Eh.
    + destruct (fenced_ok `"```html" content) as (h & ->);
        [discriminate | assumption |].
      destruct (contains `"```css" content) eqn:Ec.
      * destruct (fenced_ok `"```css" content) as (c & ->);
          [discriminate | assumption |].
        cbn [bind]. eauto.
      * cbn [bind]. eauto.
    + destruct (contains `"```css" content) eqn:Ec.
      * destruct (fenced_ok `"```css" content) as (c & ->);
          [discriminate | assumption |].
        cbn [bind]. eauto.
      * cbn [bind]. eauto.
Qed.

(** C7. A raw text without the marker pair and without an html- or
    css-tagged fence is returned whole as the markup, with the empty
    stylesheet. *)
Theorem extract_degenerate (content : str) :
  contains HTML_marker content && contains CSS_marker content = false ->
  contains `"```html" content = false ->
  contains `"```css" content = false ->
  extract content = Ok (content, []).
Proof.
  intros Hm Hh Hc. unfold extract.
  change (contains `"HTML:" content && contains `"CSS:" content)
    with (contains HTML_marker content && contains CSS_marker content).
  rewrite Hm, Hh, Hc. cbn [bind]. now destruct content.
Qed.

Lemma extract_degenerate_witness :
  extract `"Sorry, I cannot help with CSS: try again."
  = Ok (`"Sorry, I cannot help with CSS: try again.", []).
Proof. apply extract_degenerate; reflexivity. Defined.

(** C5, as stated, fails: with two stylesheet markers [split] gives three
    parts, and the second section is the text between the first two markers,
    not everything after the first. *)
Lemma sections_two_markers_counterexample :
  let content := `"HTML:<p>a</p>CSS:p{}CSS:q{}" in
  contains HTML_marker content = true /\
  contains CSS_marker content = true /\
  content = `"HTML:<p>a</p>" ++ CSS_marker ++ `"p{}CSS:q{}" /\
  length (split CSS_marker content) = 3 /\
  sections content = Ok (`"<p>a</p>", `"p{}") /\
  sections content
  <> Ok (strip (replace HTML_marker [] `"HTML:<p>a</p>"),
         strip `"p{}CSS:q{}").
Proof. cbv zeta. repeat split; try reflexivity. vm_compute. discriminate. Qed.

(** C5, amended. The text is cut at every stylesheet marker.  With [a] the
    text before the first marker and [b] the text after it, the markup
    section is [a] without its ["HTML:"] occurrences, trimmed; the stylesheet
    section is, trimmed, all of [b] when [b] has no further marker, and
    otherwise the part of [b] before its first marker. *)
Theorem sections_at_first_marker (content a b : str) :
  content = a ++ CSS_marker ++ b ->
  (forall i, i < length a -> ~ occurs_at CSS_marker content i) ->
  exists css_part,
    sections content
    = Ok (strip (replace HTML_marker [] a), strip css_part) /\
    ((forall i, ~ occurs_at CSS_marker b i) -> css_part = b) /\
    (forall b1 b2,
       b = b1 ++ CSS_marker ++ b2 ->
       (forall i, i < length b1 -> ~ occurs_at CSS_marker b i) ->
       css_part = b1).
Proof.
  intros -> Hfirst. unfold sections.
  change `"CSS:" with CSS_marker. change `"HTML:" with HTML_marker.
  rewrite split_unfold, (partition_first _ _ _ Hfirst) by discriminate.
  rewrite (split_unfold CSS_marker b) by discriminate.
  destruct (partition CSS_marker b) as [[b1 b2]|] eqn:E.
  - exists b1. cbn [index nth_error bind]. split; [reflexivity|]. split.
    + intros Habs. apply partition_absent in Habs. congruence.
    + intros c1 c2 -> Hc. rewrite (partition_first _ _ _ Hc) in E. congruence.
  - exists b. cbn [index nth_error bind]. split; [reflexivity|]. split.
    + reflexivity.
    + intros c1 c2 -> Hc. rewrite (partition_first _ _ _ Hc) in E. congruence.
Qed.

Lemma sections_at_first_marker_witness :
  exists css_part,
    sections `"HTML:<p>a</p>CSS:p{}CSS:q{}"
    = Ok (strip (replace HTML_marker [] `"HTML:<p>a</p>"), strip css_part) /\
    ((forall i, ~ occurs_at CSS_marker `"p{}CSS:q{}" i) ->
     css_part = `"p{}CSS:q{}") /\
    (forall b1 b2,
       `"p{}CSS:q{}" = b1 ++ CSS_marker ++ b2 ->
       (forall i, i < length b1 -> ~ occurs_at CSS_marker `"p{}CSS:q{}" i) ->
       css_part = b1).
Proof.
  apply (sections_at_first_marker `"HTML:<p>a</p>CSS:p{}CSS:q{}"
           `"HTML:<p>a</p>" `"p{}CSS:q{}").
  - reflexivity.
  - intros i Hi (a & b & E & Hl). subst i.
    do 13 (destruct a as [|? a]; [discriminate E|]).
    simpl in Hi. lia.
Defined.

(** ** The documented two-marker, two-fence format *)

Module DocumentedFacts.

Lemma skip_CSS (x y : str) :
  avoids "C" x = true ->
  partition CSS_marker (x ++ y) = prepend x (partition CSS_marker y).
Proof. apply (partition_avoid "C" `"SS:"). Qed.

Lemma skip_HTML (x y : str) :
  avoids "H" x = true ->
  partition HTML_marker (x ++ y) = prepend x (partition HTML_marker y).
Proof. apply (partition_avoid "H" `"TML:"). Qed.

Lemma skip_free_fence (sep x y : str) :
  contains sep x = false -> ~ In "`"%char sep ->
  partition sep (x ++ fence ++ y) = prepend x (partition sep (fence ++ y)).
Proof. intros H1 H2. now apply (partition_free sep x "`" (`"``" ++ y)). Qed.

Lemma absent_CSS (x : str) :
  avoids "C" x = true -> partition CSS_marker x = None.
Proof.
  intros H. rewrite <- (app_nil_r x), skip_CSS by assumption. reflexivity.
Qed.

Lemma absent_HTML (x : str) :
  avoids "H" x = true -> partition HTML_marker x = None.
Proof.
  intros H. rewrite <- (app_nil_r x), skip_HTML by assumption. reflexivity.
Qed.

Lemma not_in_CSS : ~ In "`"%char CSS_marker.
Proof. cbn. intuition discriminate. Qed.

Lemma not_in_HTML : ~ In "`"%char HTML_marker.
Proof. cbn. intuition discriminate. Qed.

Section Blocks.

Variables w0 w1 h w2 w3 c w4 : str.
Hypothesis B0 : blank w0 = true.
Hypothesis B1 : blank w1 = true.
Hypothesis B2 : blank w2 = true.
Hypothesis B3 : blank w3 = true.
Hypothesis B4 : blank w4 = true.
Hypothesis Hh_css : contains CSS_marker h = false.
Hypothesis Hh_html : contains HTML_marker h = false.
Hypothesis Hc_css : contains CSS_marker c = false.

Lemma documented_cut :
  documented w0 w1 h w2 w3 c w4
  = doc_before w0 w1 h w2 ++ CSS_marker ++ doc_after w3 c w4.
Proof. unfold documented, doc_before. now rewrite <- !app_assoc. Qed.

Lemma before_partition :
  partition CSS_marker (doc_before w0 w1 h w2 ++ CSS_marker ++ doc_after w3 c w4)
  = Some (doc_before w0 w1 h w2, doc_after w3 c w4).
Proof.
  unfold doc_before. rewrite <- !app_assoc.
  rewrite skip_CSS by now apply blank_avoids.
  rewrite (skip_CSS HTML_marker) by reflexivity.
  rewrite (skip_CSS w1) by now apply blank_avoids.
  rewrite (skip_CSS `"```html") by reflexivity.
  rewrite skip_free_fence by (assumption || apply not_in_CSS).
  rewrite (skip_CSS fence) by reflexivity.
  rewrite (skip_CSS w2) by now apply blank_avoids.
  rewrite partition_here. cbn [prepend]. now rewrite app_nil_r.
Qed.

Lemma after_partition : partition CSS_marker (doc_after w3 c w4) = None.
Proof.
  unfold doc_after.
  rewrite skip_CSS by now apply blank_avoids.
  rewrite (skip_CSS `"```css") by reflexivity.
  rewrite skip_free_fence by (assumption || apply not_in_CSS).
  rewrite (skip_CSS fence) by reflexivity.
  rewrite absent_CSS by now apply blank_avoids.
  reflexivity.
Qed.

Lemma before_replace :
  replace HTML_marker [] (doc_before w0 w1 h w2)
  = w0 ++ w1 ++ `"```html" ++ h ++ fence ++ w2.
Proof.
  unfold doc_before. rewrite replace_unfold by discriminate.
  rewrite skip_HTML by now apply blank_avoids.
  rewrite partition_here. cbn [prepend]. rewrite app_nil_r. cbn [app].
  f_equal. rewrite replace_unfold by discriminate.
  rewrite skip_HTML by now apply blank_avoids.
  rewrite (skip_HTML `"```html") by reflexivity.
  rewrite skip_free_fence by (assumption || apply not_in_HTML).
  rewrite (skip_HTML fence) by reflexivity.
  rewrite absent_HTML by now apply blank_avoids.
  reflexivity.
Qed.

Lemma documented_sections :
  sections (documented w0 w1 h w2 w3 c w4)
  = Ok (`"```html" ++ h ++ fence, `"```css" ++ c ++ fence).
Proof.
  unfold sections. change `"CSS:" with CSS_marker.
  change `"HTML:" with HTML_marker.
  rewrite documented_cut, split_unfold, before_partition by discriminate.
  rewrite split_unfold, after_partition by discriminate.
  cbn [index nth_error bind]. rewrite before_replace. do 2 f_equal.
  - rewrite app_assoc.
    replace (`"```html" ++ h ++ fence ++ w2)
      with (((fence ++ `"html") ++ h ++ fence) ++ w2)
      by (rewrite <- !app_assoc; reflexivity).
    rewrite strip_block; [reflexivity | | assumption].
    unfold blank. rewrite forallb_app. fold (blank w0) (blank w1).
    now rewrite B0, B1.
  - unfold doc_after.
    replace (w3 ++ `"```css" ++ c ++ fence ++ w4)
      with (w3 ++ ((fence ++ `"css") ++ c ++ fence) ++ w4)
      by (rewrite <- !app_assoc; reflexivity).
    now rewrite strip_block.
Qed.

End Blocks.

End DocumentedFacts.
Import DocumentedFacts.

(** C4, as stated, fails: an html interior that mentions ["CSS:"] is cut
    there, and the stylesheet is then taken from the wrong part. *)
Lemma extract_roundtrip_counterexample :
  let nl := ["010"%char] in
  let h := nl ++ `"<h1>Learn CSS: the basics</h1>" ++ nl in
  let c := nl ++ `"h1 { color: red; }" ++ nl in
  closes h = true /\ closes c = true /\
  extract (documented [] nl h (nl ++ nl) nl c [])
  = Ok (`"<h1>Learn", []) /\
  extract (documented [] nl h (nl ++ nl) nl c []) <> Ok (strip h, strip c).
Proof. cbv zeta. repeat split; try reflexivity. vm_compute. discriminate. Qed.

(** C4, amended. For a raw text of the documented form whose html interior
    mentions neither marker and whose css interior does not mention the
    stylesheet marker, the extractor returns the two fence interiors,
    trimmed. *)
Theorem extract_roundtrip (w0 w1 h w2 w3 c w4 : str) :
  blank w0 = true -> blank w1 = true -> blank w2 = true ->
  blank w3 = true -> blank w4 = true ->
  closes h = true -> closes c = true ->
  contains HTML_marker h = false ->
  contains CSS_marker h = false ->
  contains CSS_marker c = false ->
  extract (documented w0 w1 h w2 w3 c w4) = Ok (strip h, strip c).
Proof.
  intros B0 B1 B2 B3 B4 Ch Cc Hh_html Hh_css Hc_css. unfold extract.
  assert (E1 : contains `"HTML:" (documented w0 w1 h w2 w3 c w4) = true)
    by apply (contains_app w0 HTML_marker).
  assert (E2 : contains `"CSS:" (documented w0 w1 h w2 w3 c w4) = true).
  { rewrite documented_cut. apply contains_app. }
  rewrite E1, E2. cbn [andb].
  rewrite documented_sections by assumption. cbn [bind].
  change `"```html" with (fence ++ `"html").
  change `"```css" with (fence ++ `"css").
  rewrite !contains_startswith by apply startswith_app.
  rewrite !fenced_block by (assumption || discriminate).
  reflexivity.
Qed.

Lemma extract_roundtrip_witness :
  let nl := ["010"%char] in
  extract (documented [] nl (nl ++ `"<h1>Hi</h1>" ++ nl) (nl ++ nl)
                      nl (nl ++ `"h1 { color: red; }" ++ nl) [])
  = Ok (`"<h1>Hi</h1>", `"h1 { color: red; }").
Proof.
  cbv zeta.
  exact (extract_roundtrip [] ["010"%char]
           (["010"%char] ++ `"<h1>Hi</h1>" ++ ["010"%char])
           (["010"%char] ++ ["010"%char]) ["010"%char]
           (["010"%char] ++ `"h1 { color: red; }" ++ ["010"%char]) []
           eq_refl eq_refl eq_refl eq_refl eq_refl eq_refl eq_refl
           eq_refl eq_refl eq_refl).
Defined.

(** ** Prompt construction *)

Lemma dict_get_unknown (d : list (str * str)) (key default : str) :
  ~ In key (map fst d) -> dict_get d key default = default.
Proof.
  induction d as [|[k v] d IH]; simpl; intros H; [reflexivity|].
  destruct (str_eq_dec k key) as [->|_]; [tauto|]. apply IH. tauto.
Qed.

Lemma dict_get_here (d : list (str * str)) (k v default : str) :
  dict_get ((k, v) :: d) k default = v.
Proof. simpl. destruct (str_eq_dec k k); [reflexivity | congruence]. Qed.

Lemma dict_get_next (d : list (str * str)) (k v key default : str) :
  k <> key -> dict_get ((k, v) :: d) key default = dict_get d key default.
Proof. intros H. simpl. destruct (str_eq_dec k key); [congruence | reflexivity]. Qed.

(** The dict lookup of line 103 computes the style table. *)
Lemma style_desc_table (p s : str) :
  style_desc (mkRequest p s) = descriptor_of s.
Proof.
  unfold style_desc, descriptor_of, style_descriptions. cbn [style].
  destruct (str_eq_dec s `"modern") as [->|N1]; [apply dict_get_here|].
  rewrite dict_get_next by congruence.
  destruct (str_eq_dec s `"minimal") as [->|N2]; [apply dict_get_here|].
  rewrite dict_get_next by congruence.
  destruct (str_eq_dec s `"professional") as [->|N3]; [apply dict_get_here|].
  rewrite dict_get_next by congruence.
  destruct (str_eq_dec s `"creative") as [->|N4]; [apply dict_get_here|].
  rewrite dict_get_next by congruence. reflexivity.
Qed.

(** C8. The user prompt is the fixed sentence with the style keyword, the
    descriptor the style table gives for it, and the free text put in: each
    of the four keywords of the table gets its own descriptor; the free text
    is a verbatim stretch of the prompt, between a head and a tail that do
    not depend on it; and a style keyword outside the table gets the empty
    descriptor. *)
Theorem user_prompt_template :
  (forall p s,
     user_prompt (mkRequest p s)
     = `"Create a stunning " ++ s ++ `" style website "
         ++ descriptor_of s ++ `": " ++ p
         ++ `". Make it visually impressive with rich CSS styling, beautiful colors, and modern design. NO external images - use colored divs and gradients for visual elements.") /\
  (forall p,
     style_desc (mkRequest p `"modern")
     = `"with bold vibrant colors (#667eea to #764ba2 gradients), large typography, card-based layouts, lots of whitespace, glassmorphism effects" /\
     style_desc (mkRequest p `"minimal")
     = `"with elegant black and white palette, ultra-clean layout, generous negative space, sophisticated typography, accent color (#0066ff)" /\
     style_desc (mkRequest p `"professional")
     = `"with corporate blue gradients (#4facfe to #00f2fe), structured layout, polished cards, business-appropriate design" /\
     style_desc (mkRequest p `"creative")
     = `"with bold rainbow gradients (#f093fb to #f5576c), playful animations, asymmetric layouts, artistic flair, vibrant energy") /\
  (forall s, exists head tail, forall p,
     user_prompt (mkRequest p s) = head ++ p ++ tail /\
     length (user_prompt (mkRequest p s))
     = length head + length p + length tail) /\
  (forall p s,
     ~ In s [ `"modern"; `"minimal"; `"professional"; `"creative" ] ->
     style_desc (mkRequest p s) = [] /\
     user_prompt (mkRequest p s)
     = `"Create a stunning " ++ s ++ `" style website " ++ `": " ++ p
         ++ prompt_tail).
Proof.
  split; [|split; [|split]].
  - intros p s. unfold user_prompt. rewrite style_desc_table. reflexivity.
  - intros p. unfold style_desc, style_descriptions. cbn [style].
    split; [apply dict_get_here|].
    split; [rewrite dict_get_next by discriminate; apply dict_get_here|].
    split; rewrite !dict_get_next by discriminate; apply dict_get_here.
  - intros s.
    exists (`"Create a stunning " ++ s ++ `" style website "
              ++ dict_get style_descriptions s [] ++ `": "), prompt_tail.
    intros p. split.
    + unfold user_prompt, style_desc. cbn [style prompt].
      now rewrite <- !app_assoc.
    + unfold user_prompt, style_desc. cbn [style prompt].
      rewrite !length_app. lia.
  - intros p s H.
    assert (E : style_desc (mkRequest p s) = [])
      by (apply dict_get_unknown; exact H).
    split; [exact E|]. unfold user_prompt. now rewrite E.
Qed.

Lemma user_prompt_template_witness :
  (style_desc (mkRequest `"a bakery" `"retro") = [] /\
   user_prompt (mkRequest `"a bakery" `"retro")
   = `"Create a stunning retro style website : a bakery" ++ prompt_tail) /\
  user_prompt (mkRequest `"a bakery" `"minimal")
  = `"Create a stunning minimal style website with elegant black and white palette, ultra-clean layout, generous negative space, sophisticated typography, accent color (#0066ff): a bakery. Make it visually impressive with rich CSS styling, beautiful colors, and modern design. NO external images - use colored divs and gradients for visual elements.".
Proof.
  split.
  - apply (proj2 (proj2 (proj2 user_prompt_template)) `"a bakery" `"retro").
    cbn. intuition discriminate.
  - unfold user_prompt.
    rewrite (proj1 (proj2 (proj1 (proj2 user_prompt_template) `"a bakery"))).
    reflexivity.
Defined.

(** ** The model-fallback loop *)

Lemma is_transient_spec (error_str : str) :
  is_transient error_str = true <->
  exists keyword,
    In keyword [ `"503"; `"overloaded"; `"unavailable"; `"not found"; `"404" ]
    /\ exists a b, lower error_str = a ++ keyword ++ b.
Proof.
  unfold is_transient. rewrite existsb_exists.
  split; intros (k & Hin & H); exists k; (split; [exact Hin|]);
    now apply contains_spec.
Qed.

Section ResolverFacts.

Context {World Response : Type} {P : Provider World Response}.

Lemma last_push {A : Type} (l : list A) (x d : A) :
  last (x :: l) d = last l x.
Proof.
  revert x d. induction l as [|y l IH]; intros x d; [reflexivity|].
  change (last (x :: y :: l) d) with (last (y :: l) d).
  now rewrite !IH.
Qed.

Lemma calls_app (t1 t2 : list event) : calls (t1 ++ t2) = calls t1 ++ calls t2.
Proof.
  induction t1 as [|[m|] t1 IH]; simpl; [reflexivity| |assumption].
  now rewrite IH.
Qed.


Lemma for_loop_transient (up : str) (m : str) (rest : list str)
    (st : loop_state) (e : Exception) (w : World) :
  generate_content (world st) m up = (inl e, w) ->
  is_transient (str_of e) = true ->
  for_loop (m :: rest) up st = for_loop rest up (paused st m e w).
Proof. intros H T. simpl. now rewrite H, T. Qed.

Lemma for_loop_fatal (up : str) (m : str) (rest : list str)
    (st : loop_state) (e : Exception) (w : World) :
  generate_content (world st) m up = (inl e, w) ->
  is_transient (str_of e) = false ->
  for_loop (m :: rest) up st = (Raised e, failed st m e w).
Proof. intros H T. simpl. now rewrite H, T. Qed.


(** A run of transient failures is a stretch of the loop. *)
Lemma for_loop_run (up : str) (pre : list str) (st st' : loop_state)
    (errs : list Exception) :
  transient_run up pre st errs st' ->
  forall rest, for_loop (pre ++ rest) up st = for_loop rest up st'.
Proof.
  induction 1 as [st|m rest' st e w errs st' Hg Ht _ IH]; intros rest.
  - reflexivity.
  - cbn [app]. rewrite (for_loop_transient _ _ _ _ _ _ Hg Ht). apply IH.
Qed.

Lemma transient_run_state (up : str) (pre : list str) (st st' : loop_state)
    (errs : list Exception) :
  transient_run up pre st errs st' ->
  calls (trace st') = calls (trace st) ++ pre /\
  response st' = response st /\
  length errs = length pre /\
  last_error st' = last (map Some errs) (last_error st).
Proof.
  induction 1 as [st|m rest st e w errs st' Hg Ht _ IH].
  - simpl. now rewrite app_nil_r.
  - destruct IH as (Hc & Hr & Hl & He). repeat split.
    + rewrite Hc. cbn [paused trace]. rewrite calls_app. simpl.
      now rewrite <- app_assoc.
    + exact Hr.
    + simpl. now rewrite Hl.
    + rewrite He. cbn [paused last_error map]. now rewrite last_push.
Qed.

(** The three ways out of the loop, from a state without a response whose
    recorded error, if any, is transient. *)
Lemma for_loop_exits (up : str) (models : list str) (st : loop_state) :
  response st = None ->
  (forall e, last_error st = Some e -> is_transient (str_of e) = true) ->
  models <> [] \/ last_error st <> None ->
  let '(ex, st') := for_loop models up st in
  (ex = Break /\ exists r, response st' = Some r) \/
  (exists e, ex = Raised e /\ is_transient (str_of e) = false) \/
  (ex = Else /\ response st' = None /\
   exists e, last_error st' = Some e /\ is_transient (str_of e) = true).
Proof.
  revert st. induction models as [|m rest IH]; intros st Hr Ht Hne.
  - simpl. right. right. repeat split; [assumption|].
    destruct Hne as [Hne|Hne]; [congruence|].
    destruct (last_error st) as [e|]; [eauto | congruence].
  - simpl. destruct (generate_content (world st) m up) as [[e|r] w].
    + destruct (is_transient (str_of e)) eqn:T.
      * apply IH; [exact Hr | | right; discriminate].
        cbn [paused last_error]. intros e' [= <-]. exact T.
      * right. left. eauto.
    + left. split; [reflexivity|]. simpl. eauto.
Qed.

(** Without candidates the loop falls through to [if not response]. *)
Lemma no_candidates_no_response (request : WebsiteRequest) (w : World) :
  fst (generate_with [] request w)
  = RaiseHTTP NoResponse 500 `"Failed to generate content".
Proof. reflexivity. Qed.

End ResolverFacts.

Section Resolver.

Context {World Response : Type} {P : Provider World Response}.


(** C2. When the candidates before [m] have all failed with transient errors
    and the attempt on [m] fails with an error outside the allow-list, that
    error is propagated at once: the attempts made are exactly those up to
    [m], and no later candidate is attempted. *)
Theorem non_transient_short_circuit (request : WebsiteRequest) (w0 : World)
    (pre : list str) (m : str) (post : list str)
    (errs : list Exception) (st : loop_state) (e : Exception) (w : World) :
  models_to_try = pre ++ m :: post ->
  transient_run (user_prompt request) pre (init_state w0) errs st ->
  generate_content (world st) m (user_prompt request) = (inl e, w) ->
  is_transient (str_of e) = false ->
  generate_website request w0 = (Propagate e, failed st m e w) /\
  calls (trace (failed st m e w)) = pre ++ [m] /\
  world (failed st m e w) = w.
Proof.
  intros Hm Hrun Hg Ht. unfold generate_website, generate_with.
  rewrite Hm, (for_loop_run _ _ _ _ _ Hrun), (for_loop_fatal _ _ _ _ _ _ Hg Ht).
  split; [reflexivity|]. split; [|reflexivity].
  cbn [failed trace]. rewrite calls_app.
  destruct (transient_run_state _ _ _ _ _ Hrun) as (Hc & _). now rewrite Hc.
Qed.

(** C3. When all four candidates fail with transient errors, the handler
    raises the 503 whose detail ends with the text of the fourth error; no
    response was obtained. *)
Theorem all_transient_503 (request : WebsiteRequest) (w0 : World)
    (errs : list Exception) (st : loop_state) :
  transient_run (user_prompt request) models_to_try (init_state w0) errs st ->
  exists e1 e2 e3 e4,
    errs = [e1; e2; e3; e4] /\
    generate_website request w0
    = (RaiseHTTP AllModelsFailed 503
         (`"All Gemini models are currently unavailable. Please try again in a few moments. Last error: "
            ++ str_of e4), st) /\
    contains (str_of e4)
      (`"All Gemini models are currently unavailable. Please try again in a few moments. Last error: "
         ++ str_of e4) = true /\
    calls (trace st) = models_to_try /\
    response st = None.
Proof.
  intros Hrun.
  destruct (transient_run_state _ _ _ _ _ Hrun) as (Hc & Hr & Hl & He).
  destruct errs as [|e1 [|e2 [|e3 [|e4 [|e5 errs]]]]]; try discriminate Hl.
  exists e1, e2, e3, e4. split; [reflexivity|].
  cbn in He. unfold generate_website, generate_with.
  pose proof (for_loop_run _ _ _ _ _ Hrun []) as E.
  rewrite app_nil_r in E. rewrite E. cbn [for_loop finish]. rewrite He.
  split; [reflexivity|]. split.
  - rewrite <- (app_nil_r (str_of e4)) at 2. apply contains_app.
  - split; [exact Hc | exact Hr].
Qed.

(** C10. The loop over the four candidates is left with a response, or by
    raising a non-transient error, or exhausted with a transient error
    recorded, which raises the 503: the [raise] under [if not response] is
    never executed. *)
Theorem no_response_unreachable (request : WebsiteRequest) (w : World) :
  let '(out, st) := generate_website request w in
  ((exists r, response st = Some r /\ out = after_loop st) \/
   (exists e, is_transient (str_of e) = false /\ out = Propagate e) \/
   (exists e, last_error st = Some e /\ is_transient (str_of e) = true /\
              response st = None /\
              out = RaiseHTTP AllModelsFailed 503
                      (unavailable_detail ++ str_of e))) /\
  forall status_code detail, out <> RaiseHTTP NoResponse status_code detail.
Proof.
  unfold generate_website, generate_with.
  pose proof (for_loop_exits (user_prompt request) models_to_try
                (init_state w) eq_refl) as H.
  destruct (for_loop models_to_try (user_prompt request) (init_state w))
    as [ex st].
  destruct H as [(-> & r & Hr) | [(e & -> & Ht) | (-> & Hr & e & He & Ht)]].
  - discriminate.
  - left. discriminate.
  - cbn [finish]. split; [left; eauto|].
    unfold after_loop. rewrite Hr. intros sc d.
    destruct (content <- text r;; extract content) as [[h c]|e];
      discriminate.
  - cbn [finish]. split; [right; left; eauto | discriminate].
  - cbn [finish]. rewrite He. split; [|discriminate].
    right. right. exists e. auto.
Qed.

End Resolver.

(** *** The theorems at scripted providers *)


Lemma non_transient_short_circuit_witness :
  let P := scripted [inl overloaded_503; inl invalid_key_400;
                     inr bakery_answer] in
  let st := paused (init_state 0) `"gemini-2.0-flash-exp" overloaded_503 1 in
  generate_website (P := P) bakery 0
  = (Propagate invalid_key_400,
     failed st `"gemini-1.5-flash-latest" invalid_key_400 2) /\
  calls (trace (failed st `"gemini-1.5-flash-latest" invalid_key_400 2))
  = [ `"gemini-2.0-flash-exp" ] ++ [ `"gemini-1.5-flash-latest" ] /\
  world (failed st `"gemini-1.5-flash-latest" invalid_key_400 2) = 2.
Proof.
  cbv zeta.
  apply (non_transient_short_circuit
           (P := scripted [inl overloaded_503; inl invalid_key_400;
                           inr bakery_answer])
           bakery 0 [ `"gemini-2.0-flash-exp" ] `"gemini-1.5-flash-latest"
           [ `"gemini-1.5-flash"; `"gemini-1.5-pro-latest" ]
           [overloaded_503]).
  - reflexivity.
  - eapply run_cons; [reflexivity | reflexivity | apply run_nil].
  - reflexivity.
  - reflexivity.
Defined.

Lemma all_transient_503_witness :
  exists e1 e2 e3 e4 st,
    [overloaded_503; not_found_404; unavailable_error; overloaded_503]
    = [e1; e2; e3; e4] /\
    generate_website
      (P := scripted [inl overloaded_503; inl not_found_404;
                      inl unavailable_error; inl overloaded_503]) bakery 0
    = (RaiseHTTP AllModelsFailed 503
         (`"All Gemini models are currently unavailable. Please try again in a few moments. Last error: "
            ++ str_of e4), st) /\
    contains (str_of e4)
      (`"All Gemini models are currently unavailable. Please try again in a few moments. Last error: "
         ++ str_of e4) = true /\
    calls (trace st) = models_to_try /\
    response st = None.
Proof.
  destruct (all_transient_503
              (P := scripted [inl overloaded_503; inl not_found_404;
                              inl unavailable_error; inl overloaded_503])
              bakery 0
              [overloaded_503; not_found_404; unavailable_error;
               overloaded_503]
              (paused
                 (paused
                    (paused
                       (paused (init_state 0) `"gemini-2.0-flash-exp"
                          overloaded_503 1)
                       `"gemini-1.5-flash-latest" not_found_404 2)
                    `"gemini-1.5-flash" unavailable_error 3)
                 `"gemini-1.5-pro-latest" overloaded_503 4))
    as (e1 & e2 & e3 & e4 & H).
  - repeat (eapply run_cons; [reflexivity | reflexivity | ]). apply run_nil.
  - exists e1, e2, e3, e4. eexists. exact H.
Defined.

(** The markup marker inside the html interior is removed with the section
    label, so the interior is not recovered verbatim either. *)
Lemma html_marker_in_interior_removed :
  extract (documented [] [] `"<p>HTML: a language</p>" [] [] `"p{}" [])
  = Ok (`"<p> a language</p>", `"p{}").
Proof. reflexivity. Qed.

(** * Further properties of the handler *)

(** ** The fallback of the extractor (lines 182-189) *)

Module FallbackFacts.

(** [fenced] on a text whose only opener [tag] is followed by a block that
    closes: the trimmed interior. *)
Lemma fenced_first (tag pre h post : str) :
  tag <> [] ->
  (forall i, i < length pre ->
     ~ occurs_at tag (pre ++ tag ++ h ++ fence ++ post) i) ->
  contains tag (h ++ fence ++ post) = false ->
  closes h = true ->
  fenced tag (pre ++ tag ++ h ++ fence ++ post) = Ok (strip h).
Proof.
  intros Htag Hfirst Hrest Hh. unfold fenced.
  rewrite split_unfold, (partition_first _ _ _ Hfirst) by assumption.
  rewrite split_unfold by assumption.
  apply partition_None in Hrest. rewrite Hrest.
  cbn [index nth_error bind].
  rewrite split_unfold, closes_partition by (assumption || discriminate).
  reflexivity.
Qed.

Lemma not_both_markers (content : str) :
  contains HTML_marker content && contains CSS_marker content = false ->
  contains `"HTML:" content && contains `"CSS:" content = false.
Proof. intros H. exact H. Qed.

End FallbackFacts.
Import FallbackFacts.

(** X1. A raw text without the marker pair whose only html-tagged opener is
    followed by a block that closes, and which has no css-tagged opener,
    yields the trimmed interior of that block as markup and the empty
    stylesheet; when the interior is blank the whole text is the markup. *)
Theorem extract_html_fence_only (pre h post : str) :
  let content := pre ++ html_tag ++ h ++ fence ++ post in
  contains HTML_marker content && contains CSS_marker content = false ->
  (forall i, i < length pre -> ~ occurs_at html_tag content i) ->
  contains html_tag (h ++ fence ++ post) = false ->
  closes h = true ->
  contains css_tag content = false ->
  extract content
  = Ok (match strip h with [] => content | _ :: _ => strip h end, []).
Proof.
  cbv zeta. intros Hm Hfirst Hrest Hh Hcss. unfold extract.
  rewrite (not_both_markers _ Hm).
  change `"```html" with html_tag. change `"```css" with css_tag.
  rewrite contains_app, Hcss.
  rewrite fenced_first by (assumption || discriminate).
  reflexivity.
Qed.

Lemma extract_html_fence_only_witness :
  extract `"Here is your page: ```html<h1>Hi</h1>``` Enjoy!"
  = Ok (`"<h1>Hi</h1>", []).
Proof.
  apply (extract_html_fence_only `"Here is your page: " `"<h1>Hi</h1>"
           `" Enjoy!"); try reflexivity.
  intros i Hi (a & b & E & Hl). subst i.
  do 19 (destruct a as [|? a]; [discriminate E|]).
  simpl in Hi. lia.
Defined.

(** X2. A raw text without the marker pair that has a css-tagged block and no
    html-tagged opener yields the trimmed interior of the css block as
    stylesheet, and the whole raw text, css block included, as markup. *)
Theorem extract_css_fence_only (pre c post : str) :
  let content := pre ++ css_tag ++ c ++ fence ++ post in
  contains HTML_marker content && contains CSS_marker content = false ->
  (forall i, i < length pre -> ~ occurs_at css_tag content i) ->
  contains css_tag (c ++ fence ++ post) = false ->
  closes c = true ->
  contains html_tag content = false ->
  extract content = Ok (content, strip c).
Proof.
  cbv zeta. intros Hm Hfirst Hrest Hc Hhtml. unfold extract.
  rewrite (not_both_markers _ Hm).
  change `"```html" with html_tag. change `"```css" with css_tag.
  rewrite contains_app, Hhtml.
  rewrite fenced_first by (assumption || discriminate).
  cbn [bind]. destruct pre; reflexivity.
Qed.

Lemma extract_css_fence_only_witness :
  extract `"Style: ```cssp{}```"
  = Ok (`"Style: ```cssp{}```", `"p{}").
Proof.
  apply (extract_css_fence_only `"Style: " `"p{}" []); try reflexivity.
  intros i Hi (a & b & E & Hl). subst i.
  do 7 (destruct a as [|? a]; [discriminate E|]).
  simpl in Hi. lia.
Defined.

(** X3. A raw text without the marker pair that has one html-tagged block
    and, somewhere after or before it, one css-tagged block yields the two
    trimmed interiors (the markup must not be blank). *)
Theorem extract_two_fences_no_markers
    (content ph h qh pc c qc : str) :
  contains HTML_marker content && contains CSS_marker content = false ->
  content = ph ++ html_tag ++ h ++ fence ++ qh ->
  (forall i, i < length ph -> ~ occurs_at html_tag content i) ->
  contains html_tag (h ++ fence ++ qh) = false ->
  closes h = true ->
  content = pc ++ css_tag ++ c ++ fence ++ qc ->
  (forall i, i < length pc -> ~ occurs_at css_tag content i) ->
  contains css_tag (c ++ fence ++ qc) = false ->
  closes c = true ->
  strip h <> [] ->
  extract content = Ok (strip h, strip c).
Proof.
  intros Hm Eh Hfh Hrh Hh Ec Hfc Hrc Hc Hne. unfold extract.
  rewrite (not_both_markers _ Hm).
  change `"```html" with html_tag. change `"```css" with css_tag.
  assert (Ch : contains html_tag content = true)
    by (rewrite Eh; apply contains_app).
  assert (Cc : contains css_tag content = true)
    by (rewrite Ec; apply contains_app).
  rewrite Ch, Cc.
  assert (Fh : fenced html_tag content = Ok (strip h)).
  { rewrite Eh in Hfh |- *. apply fenced_first;
      assumption || discriminate. }
  assert (Fc : fenced css_tag content = Ok (strip c)).
  { rewrite Ec in Hfc |- *. apply fenced_first;
      assumption || discriminate. }
  rewrite Fh, Fc. cbn [bind]. destruct (strip h); [congruence|reflexivity].
Qed.

Lemma extract_two_fences_no_markers_witness :
  extract (`"```html<p>x</p>```" ++ ["010"%char] ++ `"```cssp{}```")
  = Ok (`"<p>x</p>", `"p{}").
Proof.
  apply (extract_two_fences_no_markers
           (`"```html<p>x</p>```" ++ ["010"%char] ++ `"```cssp{}```")
           [] `"<p>x</p>" (["010"%char] ++ `"```cssp{}```")
           (`"```html<p>x</p>```" ++ ["010"%char]) `"p{}" []);
    try reflexivity; try discriminate.
  - intros i Hi. simpl in Hi. lia.
  - intros i Hi (a & b & E & Hl). subst i.
    do 19 (destruct a as [|? a]; [discriminate E|]).
    simpl in Hi. lia.
Defined.

(** ** The marker format with other fences, or none (lines 169-181) *)

Module MarkedFacts.

Lemma closes_no_fence (h : str) : closes h = true -> contains fence h = false.
Proof.
  unfold closes. rewrite negb_true_iff. intros H.
  destruct (contains fence h) eqn:E; [|reflexivity].
  apply contains_spec in E as (a & b & ->).
  rewrite <- H. symmetry. rewrite <- !app_assoc. apply contains_app.
Qed.

(** A plain block [``` h ```] yields the trimmed [h]. *)
Lemma fenced_plain (h : str) :
  closes h = true -> fenced fence (fence ++ h ++ fence) = Ok (strip h).
Proof.
  intros H. unfold fenced.
  rewrite split_unfold, partition_here by discriminate.
  assert (E : split fence (h ++ fence) = h :: split fence []).
  { rewrite split_unfold by discriminate.
    replace (h ++ fence) with (h ++ fence ++ []) by now rewrite app_nil_r.
    now rewrite closes_partition. }
  rewrite E. cbn [index nth_error bind].
  rewrite split_unfold by discriminate.
  assert (N : partition fence h = None)
    by now apply partition_None, closes_no_fence.
  rewrite N. reflexivity.
Qed.

Section Marked.

(** Blocks opened by [fence ++ qh] and [fence ++ qc]. *)
Variables w0 w1 qh h w2 w3 qc c w4 : str.
Hypothesis B0 : blank w0 = true.
Hypothesis B1 : blank w1 = true.
Hypothesis B2 : blank w2 = true.
Hypothesis B3 : blank w3 = true.
Hypothesis B4 : blank w4 = true.
Hypothesis Qh_css : avoids "C" qh = true.
Hypothesis Qh_html : avoids "H" qh = true.
Hypothesis Qc_css : avoids "C" qc = true.
Hypothesis Hh_css : contains CSS_marker h = false.
Hypothesis Hh_html : contains HTML_marker h = false.
Hypothesis Hc_css : contains CSS_marker c = false.

Lemma marked_sections :
  sections (w0 ++ HTML_marker ++ w1 ++ fence ++ qh ++ h ++ fence ++ w2
               ++ CSS_marker ++ w3 ++ fence ++ qc ++ c ++ fence ++ w4)
  = Ok ((fence ++ qh) ++ h ++ fence, (fence ++ qc) ++ c ++ fence).
Proof.
  unfold sections. change `"CSS:" with CSS_marker.
  change `"HTML:" with HTML_marker.
  assert (E1 : partition CSS_marker
                 (w0 ++ HTML_marker ++ w1 ++ fence ++ qh ++ h ++ fence ++ w2
                     ++ CSS_marker ++ w3 ++ fence ++ qc ++ c ++ fence ++ w4)
               = Some (w0 ++ HTML_marker ++ w1 ++ fence ++ qh ++ h ++ fence
                          ++ w2,
                       w3 ++ fence ++ qc ++ c ++ fence ++ w4)).
  { rewrite skip_CSS by now apply blank_avoids.
    rewrite (skip_CSS HTML_marker) by reflexivity.
    rewrite (skip_CSS w1) by now apply blank_avoids.
    rewrite (skip_CSS fence) by reflexivity.
    rewrite (skip_CSS qh) by assumption.
    rewrite skip_free_fence by (assumption || apply not_in_CSS).
    rewrite (skip_CSS fence) by reflexivity.
    rewrite (skip_CSS w2) by now apply blank_avoids.
    rewrite partition_here. cbn [prepend].
    now rewrite app_nil_r. }
  assert (E2 : partition CSS_marker (w3 ++ fence ++ qc ++ c ++ fence ++ w4)
               = None).
  { rewrite skip_CSS by now apply blank_avoids.
    rewrite (skip_CSS fence) by reflexivity.
    rewrite (skip_CSS qc) by assumption.
    rewrite skip_free_fence by (assumption || apply not_in_CSS).
    rewrite (skip_CSS fence) by reflexivity.
    rewrite absent_CSS by now apply blank_avoids.
    reflexivity. }
  assert (E3 : replace HTML_marker []
                 (w0 ++ HTML_marker ++ w1 ++ fence ++ qh ++ h ++ fence ++ w2)
               = w0 ++ w1 ++ fence ++ qh ++ h ++ fence ++ w2).
  { rewrite replace_unfold by discriminate.
    rewrite skip_HTML by now apply blank_avoids.
    rewrite partition_here. cbn [prepend]. rewrite app_nil_r. cbn [app].
    f_equal. rewrite replace_unfold by discriminate.
    rewrite skip_HTML by now apply blank_avoids.
    rewrite (skip_HTML fence) by reflexivity.
    rewrite (skip_HTML qh) by assumption.
    rewrite skip_free_fence by (assumption || apply not_in_HTML).
    rewrite (skip_HTML fence) by reflexivity.
    rewrite absent_HTML by now apply blank_avoids.
    reflexivity. }
  rewrite split_unfold, E1 by discriminate.
  rewrite split_unfold, E2 by discriminate.
  cbn [index nth_error bind]. rewrite E3. do 2 f_equal.
  - rewrite app_assoc.
    replace (fence ++ qh ++ h ++ fence ++ w2)
      with (((fence ++ qh) ++ h ++ fence) ++ w2)
      by (rewrite <- !app_assoc; reflexivity).
    rewrite strip_block; [reflexivity | | assumption].
    unfold blank. rewrite forallb_app. fold (blank w0) (blank w1).
    now rewrite B0, B1.
  - replace (w3 ++ fence ++ qc ++ c ++ fence ++ w4)
      with (w3 ++ ((fence ++ qc) ++ c ++ fence) ++ w4)
      by (rewrite <- !app_assoc; reflexivity).
    now rewrite strip_block.
Qed.

End Marked.

End MarkedFacts.
Import MarkedFacts.

(** X4. In the two-marker format with plain fences (no language tag), the
    extractor falls back to the plain fence and returns the two trimmed
    interiors, provided neither block reads as a tagged one and the
    interiors do not mention the markers. *)
Theorem extract_plain_fences (w0 w1 h w2 w3 c w4 : str) :
  blank w0 = true -> blank w1 = true -> blank w2 = true ->
  blank w3 = true -> blank w4 = true ->
  closes h = true -> closes c = true ->
  contains html_tag (fence ++ h ++ fence) = false ->
  contains css_tag (fence ++ c ++ fence) = false ->
  contains HTML_marker h = false ->
  contains CSS_marker h = false ->
  contains CSS_marker c = false ->
  extract (plain_fenced w0 w1 h w2 w3 c w4) = Ok (strip h, strip c).
Proof.
  intros B0 B1 B2 B3 B4 Ch Cc Th Tc Hh_html Hh_css Hc_css. unfold extract.
  assert (E1 : contains `"HTML:" (plain_fenced w0 w1 h w2 w3 c w4) = true)
    by apply (contains_app w0 HTML_marker).
  assert (E2 : contains `"CSS:" (plain_fenced w0 w1 h w2 w3 c w4) = true).
  { unfold plain_fenced.
    replace (w0 ++ HTML_marker ++ w1 ++ fence ++ h ++ fence ++ w2
                ++ CSS_marker ++ w3 ++ fence ++ c ++ fence ++ w4)
      with ((w0 ++ HTML_marker ++ w1 ++ fence ++ h ++ fence ++ w2)
              ++ CSS_marker ++ w3 ++ fence ++ c ++ fence ++ w4)
      by (rewrite <- !app_assoc; reflexivity).
    apply contains_app. }
  rewrite E1, E2. cbn [andb]. unfold plain_fenced.
  pose proof (marked_sections w0 w1 [] h w2 w3 [] c w4
                B0 B1 B2 B3 B4 eq_refl eq_refl eq_refl
                Hh_css Hh_html Hc_css) as S.
  cbn [app] in S. rewrite S.
  cbn [bind]. rewrite !app_nil_r.
  change `"```html" with html_tag. change `"```css" with css_tag.
  rewrite Th, Tc.
  rewrite !contains_startswith by apply startswith_app.
  rewrite !fenced_plain by assumption. reflexivity.
Qed.

Lemma extract_plain_fences_witness :
  extract (plain_fenced [] ["010"%char] `"<p>x</p>" ["010"%char]
             ["010"%char] `"p{}" [])
  = Ok (`"<p>x</p>", `"p{}").
Proof.
  apply (extract_plain_fences [] ["010"%char] `"<p>x</p>" ["010"%char]
           ["010"%char] `"p{}" []); reflexivity.
Defined.

(** ** Where the fragments come from *)

Module PartsFacts.

Lemma lstrip_suffix (s : str) : exists w, s = w ++ lstrip s.
Proof.
  induction s as [|c s [w IH]]; [now exists []|]. simpl.
  destruct (isspace c).
  - exists (c :: w). simpl. now rewrite <- IH.
  - now exists [].
Qed.

Lemma rstrip_prefix (s : str) : exists w, s = rstrip s ++ w.
Proof.
  unfold rstrip. destruct (lstrip_suffix (rev s)) as [w E].
  exists (rev w). rewrite <- rev_app_distr, <- E. now rewrite rev_involutive.
Qed.

Lemma strip_inside (s : str) : exists a b, s = a ++ strip s ++ b.
Proof.
  unfold strip. destruct (lstrip_suffix s) as [a Ea].
  destruct (rstrip_prefix (lstrip s)) as [b Eb].
  exists a, b. now rewrite <- Eb.
Qed.

Lemma inside_trans (x y z : str) :
  (exists a b, y = a ++ x ++ b) -> (exists a b, z = a ++ y ++ b) ->
  exists a b, z = a ++ x ++ b.
Proof.
  intros (a & b & ->) (a' & b' & ->). exists (a' ++ a), (b ++ b').
  now rewrite <- !app_assoc.
Qed.

(** Every part of a [split] is a stretch of the text. *)
Lemma split_rounds_inside (sep : str) (n : nat) :
  forall s i p, nth_error (split_rounds n sep s) i = Some p ->
    exists a b, s = a ++ p ++ b.
Proof.
  induction n as [|n IH]; intros s i p H.
  - destruct i as [|[|i]]; simpl in H; try discriminate.
    injection H as <-. exists [], []. now rewrite app_nil_r.
  - simpl in H. destruct (partition sep s) as [[a b]|] eqn:E.
    + apply partition_sound in E. destruct i as [|i]; simpl in H.
      * injection H as <-. exists [], (sep ++ b). exact E.
      * destruct (IH _ _ _ H) as (a' & b' & ->).
        exists (a ++ sep ++ a'), b'. rewrite E. now rewrite <- !app_assoc.
    + destruct i as [|[|i]]; simpl in H; try discriminate.
      injection H as <-. exists [], []. now rewrite app_nil_r.
Qed.

Lemma index_inside (sep s : str) (i : nat) (p : str) :
  index (split sep s) i = Ok p -> exists a b, s = a ++ p ++ b.
Proof.
  unfold index, split. intros H.
  destruct (nth_error (split_rounds (length s) sep s) i) as [x|] eqn:E;
    [|discriminate].
  injection H as <-. now apply split_rounds_inside in E.
Qed.

Lemma fenced_inside (tag s x : str) :
  fenced tag s = Ok x -> exists a b, s = a ++ x ++ b.
Proof.
  unfold fenced. intros H.
  destruct (index (split tag s) 1) as [p|] eqn:E1; [|discriminate].
  cbn [bind] in H.
  destruct (index (split fence p) 0) as [q|] eqn:E2; [|discriminate].
  cbn [bind] in H. injection H as <-.
  apply index_inside in E1, E2.
  eapply inside_trans; [|exact E1].
  eapply inside_trans; [|exact E2]. apply strip_inside.
Qed.

(** *** Trimming twice *)

Lemma lstrip_solid_head (s : str) : solid_head (lstrip s) = true.
Proof.
  induction s as [|c s IH]; [reflexivity|]. simpl.
  destruct (isspace c) eqn:E; [exact IH|]. simpl. now rewrite E.
Qed.

Lemma solid_head_lstrip (s : str) : solid_head s = true -> lstrip s = s.
Proof.
  destruct s as [|c s]; [reflexivity|]. simpl. intros H.
  apply negb_true_iff in H. now rewrite H.
Qed.

Lemma rstrip_idem (s : str) : rstrip (rstrip s) = rstrip s.
Proof.
  unfold rstrip. rewrite rev_involutive.
  now rewrite (solid_head_lstrip _ (lstrip_solid_head (rev s))).
Qed.

Lemma rstrip_solid_head (s : str) :
  solid_head s = true -> solid_head (rstrip s) = true.
Proof.
  intros H. destruct (rstrip_prefix s) as [w E].
  destruct (rstrip s) as [|c r]; [reflexivity|].
  rewrite E in H. exact H.
Qed.

Lemma strip_idem (s : str) : strip (strip s) = strip s.
Proof.
  unfold strip.
  rewrite (solid_head_lstrip (rstrip (lstrip s)))
    by apply rstrip_solid_head, lstrip_solid_head.
  apply rstrip_idem.
Qed.

Lemma fenced_trimmed (tag s x : str) : fenced tag s = Ok x -> strip x = x.
Proof.
  unfold fenced. intros H.
  destruct (index (split tag s) 1) as [p|]; [|discriminate].
  cbn [bind] in H.
  destruct (index (split fence p) 0) as [q|]; [|discriminate].
  cbn [bind] in H. injection H as <-. apply strip_idem.
Qed.

(** *** Lengths and characters *)

Lemma inside_length (x s : str) :
  (exists a b, s = a ++ x ++ b) -> length x <= length s.
Proof. intros (a & b & ->). rewrite !length_app. lia. Qed.

Lemma inside_In (x s : str) (c : ascii) :
  (exists a b, s = a ++ x ++ b) -> In c x -> In c s.
Proof.
  intros (a & b & ->) H. apply in_or_app. right. apply in_or_app. now left.
Qed.

Lemma replace_rounds_shrinks (old : str) (n : nat) :
  forall s, length (replace_rounds n old [] s) <= length s.
Proof.
  induction n as [|n IH]; intros s; simpl; [lia|].
  destruct (partition old s) as [[a b]|] eqn:E; [|lia].
  apply partition_length in E. cbn [app]. rewrite length_app.
  specialize (IH b). lia.
Qed.

Lemma replace_rounds_In (old : str) (c : ascii) (n : nat) :
  forall s, In c (replace_rounds n old [] s) -> In c s.
Proof.
  induction n as [|n IH]; intros s; simpl; [tauto|].
  destruct (partition old s) as [[a b]|] eqn:E; [|tauto].
  apply partition_sound in E. subst s. cbn [app]. intros H.
  apply in_app_or in H as [H|H]; apply in_or_app; [now left|].
  right. apply in_or_app. right. now apply IH.
Qed.

Lemma contains_In (c : ascii) (sep s : str) :
  contains (c :: sep) s = true -> In c s.
Proof.
  intros H. apply contains_spec in H as (a & b & ->).
  apply in_or_app. right. now left.
Qed.

End PartsFacts.
Import PartsFacts.

Module OriginFacts.

Lemma sections_inv (content hs cs : str) :
  sections content = Ok (hs, cs) ->
  exists p0 p1,
    (exists a b, content = a ++ p0 ++ b) /\
    (exists a b, content = a ++ p1 ++ b) /\
    hs = strip (replace HTML_marker [] p0) /\ cs = strip p1.
Proof.
  unfold sections. intros H.
  destruct (index (split `"CSS:" content) 0) as [p0|] eqn:E0; [|discriminate].
  cbn [bind] in H.
  destruct (index (split `"CSS:" content) 1) as [p1|] eqn:E1; [|discriminate].
  cbn [bind] in H. injection H as <- <-.
  exists p0, p1. apply index_inside in E0, E1. auto.
Qed.

Lemma block_choice_inv (tag section x : str) :
  (if contains tag section then fenced tag section
   else if contains fence section then fenced fence section
   else Ok section) = Ok x ->
  (exists a b, section = a ++ x ++ b) /\
  (strip section = section -> strip x = x).
Proof.
  destruct (contains tag section).
  - intros H. split; [now apply fenced_inside in H|].
    intros _. now apply fenced_trimmed in H.
  - destruct (contains fence section).
    + intros H. split; [now apply fenced_inside in H|].
      intros _. now apply fenced_trimmed in H.
    + intros [= <-]. split; [|auto].
      exists [], []. now rewrite app_nil_r.
Qed.

Lemma tagged_choice_inv (tag content x : str) :
  (if contains tag content then fenced tag content else Ok []) = Ok x ->
  (exists a b, content = a ++ x ++ b) /\ strip x = x.
Proof.
  destruct (contains tag content).
  - intros H. split; [now apply fenced_inside in H|].
    now apply fenced_trimmed in H.
  - intros [= <-]. split; [|reflexivity]. now exists [], content.
Qed.

End OriginFacts.
Import OriginFacts.

(** X5. When the text has both markers, a single stylesheet marker and no
    backtick at all, the two sections are returned as they are: the text
    before the stylesheet marker without its ["HTML:"] labels, trimmed, and
    the text after the marker, trimmed. *)
Theorem extract_without_fences (content a b : str) :
  contains HTML_marker content = true ->
  content = a ++ CSS_marker ++ b ->
  (forall i, i < length a -> ~ occurs_at CSS_marker content i) ->
  contains CSS_marker b = false ->
  ~ In "`"%char content ->
  extract content = Ok (strip (replace HTML_marker [] a), strip b).
Proof.
  intros Hh -> Hfirst Hb Hno. unfold extract.
  change `"HTML:" with HTML_marker. change `"CSS:" with CSS_marker.
  rewrite Hh, contains_app. cbn [andb].
  assert (S : sections (a ++ CSS_marker ++ b)
              = Ok (strip (replace HTML_marker [] a), strip b)).
  { unfold sections. change `"CSS:" with CSS_marker.
    change `"HTML:" with HTML_marker.
    rewrite split_unfold, (partition_first _ _ _ Hfirst) by discriminate.
    rewrite split_unfold by discriminate.
    apply partition_None in Hb. now rewrite Hb. }
  rewrite S. cbn [bind].
  assert (Ha : forall x, ~ In "`"%char a ->
                 contains (fence ++ x) (strip (replace HTML_marker [] a))
                 = false).
  { intros x Hna.
    destruct (contains (fence ++ x) (strip (replace HTML_marker [] a)))
      eqn:E; [|reflexivity].
    exfalso. apply Hna. apply (contains_In "`" (`"``" ++ x)) in E.
    apply (inside_In _ _ _ (strip_inside _)) in E.
    now apply replace_rounds_In in E. }
  assert (Hbk : forall x, ~ In "`"%char b ->
                 contains (fence ++ x) (strip b) = false).
  { intros x Hnb.
    destruct (contains (fence ++ x) (strip b)) eqn:E; [|reflexivity].
    exfalso. apply Hnb. apply (contains_In "`" (`"``" ++ x)) in E.
    now apply (inside_In _ _ _ (strip_inside _)) in E. }
  assert (Hna : ~ In "`"%char a).
  { intros H. apply Hno. apply in_or_app. now left. }
  assert (Hnb : ~ In "`"%char b).
  { intros H. apply Hno. apply in_or_app. right. apply in_or_app. now right. }
  change `"```html" with (fence ++ `"html").
  change `"```css" with (fence ++ `"css").
  rewrite (Ha `"html" Hna), (Hbk `"css" Hnb).
  pose proof (Ha [] Hna) as Fa. pose proof (Hbk [] Hnb) as Fb.
  rewrite app_nil_r in Fa, Fb. rewrite Fa, Fb. reflexivity.
Qed.

Lemma extract_without_fences_witness :
  extract `"HTML: <p>x</p> CSS: p{}" = Ok (`"<p>x</p>", `"p{}").
Proof.
  apply (extract_without_fences `"HTML: <p>x</p> CSS: p{}"
           `"HTML: <p>x</p> " `" p{}"); try reflexivity.
  - intros i Hi (a & b & E & Hl). subst i.
    do 15 (destruct a as [|? a]; [discriminate E|]).
    simpl in Hi. lia.
  - cbn. intuition discriminate.
Defined.

(** X6. Whatever the raw text, the stylesheet fragment is a trimmed stretch
    of the raw text, and the markup fragment is never longer than the raw
    text. *)
Theorem fragments_from_text (content html css : str) :
  extract content = Ok (html, css) ->
  (exists a b, content = a ++ css ++ b) /\
  strip css = css /\
  length html <= length content.
Proof.
  unfold extract.
  destruct (contains `"HTML:" content && contains `"CSS:" content).
  - destruct (sections content) as [[hs cs]|] eqn:S; [|discriminate].
    cbn [bind]. apply sections_inv in S
      as (p0 & p1 & I0 & I1 & Ehs & Ecs).
    destruct (if contains `"```html" hs then fenced `"```html" hs
              else if contains fence hs then fenced fence hs else Ok hs)
      as [x|] eqn:Ex; [|discriminate].
    cbn [bind].
    destruct (if contains `"```css" cs then fenced `"```css" cs
              else if contains fence cs then fenced fence cs else Ok cs)
      as [y|] eqn:Ey; [|discriminate].
    cbn [bind]. intros [= <- <-].
    apply block_choice_inv in Ex as [Ix _].
    apply block_choice_inv in Ey as [Iy Ty].
    repeat split.
    + eapply inside_trans; [exact Iy|].
      eapply inside_trans; [|exact I1]. rewrite Ecs. apply strip_inside.
    + apply Ty. rewrite Ecs. apply strip_idem.
    + apply inside_length in Ix, I0.
      pose proof (inside_length _ _ (strip_inside (replace HTML_marker [] p0)))
        as L1.
      pose proof (replace_rounds_shrinks HTML_marker (length p0) p0) as L2.
      fold (replace HTML_marker [] p0) in L2. rewrite <- Ehs in L1. lia.
  - destruct (if contains `"```html" content
              then fenced `"```html" content else Ok [])
      as [x|] eqn:Ex; [|discriminate].
    cbn [bind].
    destruct (if contains `"```css" content
              then fenced `"```css" content else Ok [])
      as [y|] eqn:Ey; [|discriminate].
    cbn [bind]. intros [= <- <-].
    apply tagged_choice_inv in Ex as [Ix _].
    apply tagged_choice_inv in Ey as [Iy Ty].
    repeat split; [exact Iy | exact Ty |].
    destruct x; [lia|]. now apply inside_length.
Qed.

Lemma fragments_from_text_witness :
  (exists a b, bakery_answer = a ++ `"h1 { color: brown; }" ++ b) /\
  strip `"h1 { color: brown; }" = `"h1 { color: brown; }" /\
  length `"<h1>Bakery</h1>" <= length bakery_answer.
Proof.
  apply (fragments_from_text bakery_answer `"<h1>Bakery</h1>"
           `"h1 { color: brown; }").
  reflexivity.
Defined.

(** ** The handler as a whole (lines 106-202) *)

Module HandlerFacts.

(** The extraction steps never raise (the same fact as for the claim on the
    extractor, in the form the handler uses). *)
Lemma extract_not_raise (content : str) (e : Exception) :
  extract content <> Raise e.
Proof.
  unfold extract.
  destruct (contains `"HTML:" content && contains `"CSS:" content) eqn:E.
  - apply andb_true_iff in E as [_ Hcss].
    destruct (sections_ok content Hcss) as (hs & cs & ->). cbn [bind].
    destruct (block_choice_ok `"```html" hs) as (h & ->); [discriminate|].
    destruct (block_choice_ok `"```css" cs) as (c & ->); [discriminate|].
    discriminate.
  - destruct (contains `"```html" content) eqn:Eh;
      destruct (contains `"```css" content) eqn:Ec;
      try (destruct (fenced_ok `"```html" content) as (h & ->);
           [discriminate | assumption |]);
      try (destruct (fenced_ok `"```css" content) as (c & ->);
           [discriminate | assumption |]);
      discriminate.
Qed.

Lemma sleeps_app (t1 t2 : list event) :
  sleeps (t1 ++ t2) = sleeps t1 + sleeps t2.
Proof.
  induction t1 as [|[m|] t1 IH]; simpl; [reflexivity|assumption|].
  now rewrite IH.
Qed.

Lemma sleeps_pauses (ms : list str) : sleeps (pauses ms) = length ms.
Proof. induction ms as [|m ms IH]; simpl; [reflexivity|]. now rewrite IH. Qed.

Lemma calls_pauses (ms : list str) : calls (pauses ms) = ms.
Proof. induction ms as [|m ms IH]; simpl; [reflexivity|]. now rewrite IH. Qed.

Lemma firstn_snoc (ms : list str) (k : nat) (m : str) :
  nth_error ms k = Some m -> firstn (S k) ms = firstn k ms ++ [m].
Proof.
  revert k. induction ms as [|x ms IH]; intros [|k] H; try discriminate.
  - injection H as ->. reflexivity.
  - cbn [firstn app]. f_equal. now apply IH.
Qed.

Section Loop.

Context {World Response : Type} {P : Provider World Response}.

(** The trace of the loop: a pause after every candidate when the list is
    exhausted; otherwise pauses after the candidates before the one whose
    attempt ended the loop, and no pause after that one. *)
Lemma for_loop_trace (up : str) (models : list str) (st : loop_state) :
  let '(ex, st') := for_loop models up st in
  match ex with
  | Else => trace st' = trace st ++ pauses models
  | Break | Raised _ =>
      exists k m, nth_error models k = Some m /\
        trace st' = trace st ++ pauses (firstn k models) ++ [Call m]
  end.
Proof.
  revert st. induction models as [|m rest IH]; intros st.
  - simpl. now rewrite app_nil_r.
  - simpl. destruct (generate_content (world st) m up) as [[e|r] w].
    + destruct (is_transient (str_of e)).
      * specialize (IH (paused st m e w)).
        destruct (for_loop rest up (paused st m e w)) as [[| |e'] st'].
        -- destruct IH as (k & m' & Hk & Ht). exists (S k), m'.
           split; [exact Hk|]. rewrite Ht. cbn [paused trace firstn pauses
             flat_map app]. now rewrite <- app_assoc.
        -- rewrite IH. cbn [paused trace]. now rewrite <- app_assoc.
        -- destruct IH as (k & m' & Hk & Ht). exists (S k), m'.
           split; [exact Hk|]. rewrite Ht. cbn [paused trace firstn pauses
             flat_map app]. now rewrite <- app_assoc.
      * exists 0, m. split; reflexivity.
    + exists 0, m. split; reflexivity.
Qed.

End Loop.

End HandlerFacts.
Import HandlerFacts.

Section HandlerOutcomes.

Context {World Response : Type} {P : Provider World Response}.

(** X7. A returned [WebsiteResponse] always has [success = True] and the
    fixed message; its fragments are what the extractor gives on the text of
    the response object recorded by the loop. *)
Theorem return_is_success (request : WebsiteRequest) (w : World)
    (r : WebsiteResponse) (st : loop_state) :
  generate_website request w = (Return r, st) ->
  success r = true /\
  message r = `"Website generated successfully" /\
  exists resp content,
    response st = Some resp /\
    text resp = Ok content /\
    extract content = Ok (html r, css r).
Proof.
  unfold generate_website, generate_with.
  pose proof (for_loop_exits (user_prompt request) models_to_try
                (init_state w) eq_refl) as H.
  destruct (for_loop models_to_try (user_prompt request) (init_state w))
    as [ex st'].
  intros [= Hout <-].
  destruct H as [(-> & resp & Hr) | [(e & -> & Ht) | (-> & Hr & e & He & Ht)]];
    try discriminate; try (left; discriminate).
  - cbn [finish] in Hout. unfold after_loop in Hout. rewrite Hr in Hout.
    destruct (text resp) as [content|e] eqn:Et; cbn [bind] in Hout;
      [|discriminate].
    destruct (extract content) as [[h c]|e] eqn:Ee; [|discriminate].
    injection Hout as <-. cbn. repeat split. exists resp, content. auto.
  - cbn [finish] in Hout. rewrite He in Hout. discriminate.
Qed.

(** X8. An HTTP error of the handler has one of two causes: 503 after all
    four candidates were attempted and each failed with a transient error
    (the detail ends with the text of the last one), or 500 because reading
    the text of the response object raised (the detail is that error's
    text). *)
Theorem http_error_causes (request : WebsiteRequest) (w : World)
    (site : raise_site) (status_code : nat) (detail : str)
    (st : loop_state) :
  generate_website request w = (RaiseHTTP site status_code detail, st) ->
  (site = AllModelsFailed /\ status_code = 503 /\
   calls (trace st) = models_to_try /\ response st = None /\
   exists e, last_error st = Some e /\ is_transient (str_of e) = true /\
             detail = unavailable_detail ++ str_of e) \/
  (site = HandlerCaught /\ status_code = 500 /\
   exists resp e, response st = Some resp /\ text resp = Raise e /\
                  detail = str_of e).
Proof.
  unfold generate_website, generate_with.
  pose proof (for_loop_exits (user_prompt request) models_to_try
                (init_state w) eq_refl) as H.
  pose proof (for_loop_trace (user_prompt request) models_to_try
                (init_state w)) as T.
  destruct (for_loop models_to_try (user_prompt request) (init_state w))
    as [ex st'].
  intros [= Hout <-].
  destruct H as [(-> & resp & Hr) | [(e & -> & Ht) | (-> & Hr & e & He & Ht)]];
    try discriminate; try (left; discriminate).
  - right. cbn [finish] in Hout. unfold after_loop in Hout.
    rewrite Hr in Hout.
    destruct (text resp) as [content|e] eqn:Et; cbn [bind] in Hout.
    + destruct (extract content) as [[h c]|e] eqn:Ee; [discriminate|].
      now destruct (extract_not_raise content e).
    + injection Hout as <- <- <-. repeat split. eauto.
  - left. cbn [finish] in Hout. rewrite He in Hout.
    injection Hout as <- <- <-. repeat split; [|exact Hr|eauto].
    rewrite T. cbn [init_state trace app]. apply calls_pauses.
Qed.

(** X9. Every request makes between one and four attempts: with [k] the
    number of half-second pauses, [k <= 4], the attempts are the first
    [k + 1] candidates (all four when [k = 4]), and there are four pauses
    exactly when the handler raises the 503, so it then also pauses after
    the last candidate. *)
Theorem request_trace (request : WebsiteRequest) (w : World) :
  let '(out, st) := generate_website request w in
  exists k,
    k <= 4 /\
    sleeps (trace st) = k /\
    calls (trace st) = firstn (S k) models_to_try /\
    (k = 4 <-> exists detail, out = RaiseHTTP AllModelsFailed 503 detail).
Proof.
  unfold generate_website, generate_with.
  pose proof (for_loop_exits (user_prompt request) models_to_try
                (init_state w) eq_refl) as H.
  pose proof (for_loop_trace (user_prompt request) models_to_try
                (init_state w)) as T.
  destruct (for_loop models_to_try (user_prompt request) (init_state w))
    as [ex st].
  cbn [init_state trace app] in T.
  assert (Hshort : forall k m,
            nth_error models_to_try k = Some m ->
            trace st = pauses (firstn k models_to_try) ++ [Call m] ->
            k < 4 /\ sleeps (trace st) = k /\
            calls (trace st) = firstn (S k) models_to_try).
  { intros k m Hk Ht.
    assert (Hlt : k < 4).
    { change 4 with (length models_to_try).
      apply nth_error_Some. rewrite Hk. discriminate. }
    split; [exact Hlt|]. rewrite Ht. split.
    - rewrite sleeps_app, sleeps_pauses, length_firstn. simpl. lia.
    - rewrite calls_app, calls_pauses. cbn [calls]. symmetry.
      now apply firstn_snoc. }
  destruct H as [(-> & resp & Hr) | [(e & -> & Ht) | (-> & Hr & e & He & Ht)]];
    try discriminate; try (left; discriminate).
  - destruct T as (k & m & Hk & Htr).
    destruct (Hshort k m Hk Htr) as (Hlt & Hs & Hc).
    exists k. repeat split; [lia | exact Hs | exact Hc | lia |].
    intros [d Hd]. cbn [finish] in Hd. unfold after_loop in Hd.
    rewrite Hr in Hd.
    destruct (content <- text resp;; extract content) as [[h c]|e'];
      discriminate.
  - destruct T as (k & m & Hk & Htr).
    destruct (Hshort k m Hk Htr) as (Hlt & Hs & Hc).
    exists k. repeat split; [lia | exact Hs | exact Hc | lia |].
    intros [d Hd]. discriminate.
  - exists 4. rewrite T. split; [lia|]. split; [reflexivity|].
    split; [reflexivity|]. split; [|reflexivity].
    intros _. cbn [finish]. rewrite He. eauto.
Qed.

End HandlerOutcomes.

Lemma return_is_success_witness :
  let r := mkResponse `"<h1>Bakery</h1>" `"h1 { color: brown; }" true
             `"Website generated successfully" in
  success r = true /\
  message r = `"Website generated successfully" /\
  exists resp content,
    response (succeeded (init_state 0) `"gemini-2.0-flash-exp"
                bakery_answer 1) = Some resp /\
    text (Provider := scripted [inr bakery_answer]) resp = Ok content /\
    extract content = Ok (html r, css r).
Proof.
  cbv zeta.
  apply (return_is_success (P := scripted [inr bakery_answer]) bakery 0).
  reflexivity.
Defined.

Lemma http_error_causes_witness :
  exists resp e,
    response (snd (generate_website (P := refusing) bakery 0)) = Some resp /\
    text (Provider := refusing) resp = Raise e /\
    str_of blocked_error = str_of e.
Proof.
  destruct (http_error_causes (P := refusing) bakery 0 HandlerCaught 500
              (str_of blocked_error)
              (snd (generate_website (P := refusing) bakery 0)) eq_refl)
    as [(H & _) | (_ & _ & H)]; [discriminate H | exact H].
Defined.

(** ** The allow-list test (line 136) *)

Module TransientFacts.

Lemma lower_char_idem (c : ascii) : lower_char (lower_char c) = lower_char c.
Proof. destruct c as [[] [] [] [] [] [] [] []]; reflexivity. Qed.

Lemma lower_idem (s : str) : lower (lower s) = lower s.
Proof.
  unfold lower. rewrite map_map. apply map_ext. apply lower_char_idem.
Qed.

Lemma lower_app (a b : str) : lower (a ++ b) = lower a ++ lower b.
Proof. apply map_app. Qed.

End TransientFacts.
Import TransientFacts.

(** X10. The allow-list test looks at the error text without regard to
    letter case and to what surrounds an indicator: the lower-cased text is
    classified like the text, and a text that contains, anywhere, a text
    classified as transient is transient too. *)
Theorem transient_closure :
  (forall s, is_transient (lower s) = is_transient s) /\
  (forall s a b,
     is_transient s = true -> is_transient (a ++ s ++ b) = true).
Proof.
  split.
  - intros s. unfold is_transient. now rewrite lower_idem.
  - intros s a b H. apply is_transient_spec in H as (k & Hin & x & y & E).
    apply is_transient_spec. exists k. split; [exact Hin|].
    exists (lower a ++ x), (y ++ lower b).
    rewrite !lower_app, E. now rewrite <- !app_assoc.
Qed.

Lemma transient_closure_witness :
  is_transient
    (`"Upstream said: " ++ `"Model Overloaded" ++ `" (request 17)") = true.
Proof.
  apply (proj2 transient_closure `"Model Overloaded" `"Upstream said: "
           `" (request 17)").
  reflexivity.
Defined.

(** ** An answer cut short (lines 176-177) *)

Module TruncatedFacts.

Lemma lstrip_all_blank (w : str) : blank w = true -> lstrip w = [].
Proof.
  intros H. rewrite <- (app_nil_r w). now rewrite lstrip_blank.
Qed.

Lemma lstrip_app (a b : str) :
  lstrip (a ++ b) = if blank a then lstrip b else lstrip a ++ b.
Proof.
  induction a as [|c a IH]; [reflexivity|]. simpl.
  destruct (isspace c); [exact IH | reflexivity].
Qed.

Lemma rstrip_all_blank (w : str) : blank w = true -> rstrip w = [].
Proof.
  intros H. unfold rstrip. rewrite lstrip_all_blank; [reflexivity|].
  now rewrite blank_rev.
Qed.

Lemma rstrip_cons (c : ascii) (x : str) :
  rstrip (c :: x) = if isspace c && blank x then [] else c :: rstrip x.
Proof.
  unfold rstrip. cbn [rev]. rewrite lstrip_app, blank_rev.
  destruct (blank x) eqn:B.
  - rewrite (lstrip_all_blank (rev x)) by now rewrite blank_rev.
    simpl. destruct (isspace c); reflexivity.
  - rewrite andb_false_r, rev_app_distr. reflexivity.
Qed.

(** Trimming on the left and on the right commute. *)
Lemma lstrip_rstrip (s : str) : lstrip (rstrip s) = rstrip (lstrip s).
Proof.
  induction s as [|c s IH]; [reflexivity|].
  rewrite rstrip_cons. cbn [lstrip]. destruct (isspace c) eqn:E.
  - destruct (blank s) eqn:B; cbn [andb].
    + now rewrite (lstrip_all_blank s B).
    + cbn [lstrip]. rewrite E. exact IH.
  - cbn [andb lstrip]. rewrite E. rewrite rstrip_cons, E. reflexivity.
Qed.

Lemma strip_rstrip (s : str) : strip (rstrip s) = strip s.
Proof. unfold strip. now rewrite lstrip_rstrip, rstrip_idem. Qed.

(** A text that ends with a non-blank character is kept by [rstrip] of what
    it is followed by. *)
Lemma rstrip_after_solid (x : str) (d : ascii) (y : str) :
  isspace d = false -> rstrip ((x ++ [d]) ++ y) = (x ++ [d]) ++ rstrip y.
Proof.
  intros Hd. induction x as [|e x IH].
  - cbn [app]. rewrite rstrip_cons, Hd. reflexivity.
  - cbn [app]. rewrite rstrip_cons.
    replace (blank ((x ++ [d]) ++ y)) with false.
    + rewrite andb_false_r. f_equal. exact IH.
    + symmetry. unfold blank. rewrite !forallb_app. simpl. rewrite Hd.
      now rewrite andb_false_r.
Qed.

Lemma not_contains_inside (sep x s : str) :
  (exists a b, s = a ++ x ++ b) -> contains sep s = false ->
  contains sep x = false.
Proof.
  intros (a & b & ->) H. destruct (contains sep x) eqn:E; [|reflexivity].
  apply contains_spec in E as (a' & b' & ->). rewrite <- H. symmetry.
  replace (a ++ (a' ++ sep ++ b') ++ b) with ((a ++ a') ++ sep ++ b' ++ b)
    by (rewrite <- !app_assoc; reflexivity).
  apply contains_app.
Qed.

Lemma rstrip_inside (s : str) : exists a b, s = a ++ rstrip s ++ b.
Proof. destruct (rstrip_prefix s) as [w E]. now exists [], w. Qed.

(** The text before the stylesheet marker is cut off whatever follows. *)
Lemma before_cut (w0 w1 h w2 rest : str) :
  blank w0 = true -> blank w1 = true -> blank w2 = true ->
  contains CSS_marker h = false ->
  partition CSS_marker (doc_before w0 w1 h w2 ++ CSS_marker ++ rest)
  = Some (doc_before w0 w1 h w2, rest).
Proof.
  intros B0 B1 B2 Hh. unfold doc_before. rewrite <- !app_assoc.
  rewrite skip_CSS by now apply blank_avoids.
  rewrite (skip_CSS HTML_marker) by reflexivity.
  rewrite (skip_CSS w1) by now apply blank_avoids.
  rewrite (skip_CSS `"```html") by reflexivity.
  rewrite skip_free_fence by (assumption || apply not_in_CSS).
  rewrite (skip_CSS fence) by reflexivity.
  rewrite (skip_CSS w2) by now apply blank_avoids.
  rewrite partition_here. cbn [prepend]. now rewrite app_nil_r.
Qed.

(** An opener followed by text without any fence: the trimmed text. *)
Lemma fenced_unclosed (q y : str) :
  q <> [] -> contains fence y = false ->
  fenced (fence ++ q) ((fence ++ q) ++ y) = Ok (strip y).
Proof.
  intros Hq Hy. unfold fenced.
  rewrite split_unfold, partition_here by discriminate.
  assert (N : partition (fence ++ q) y = None).
  { apply partition_None.
    destruct (contains (fence ++ q) y) eqn:E; [|reflexivity].
    apply contains_spec in E as (a & b & ->). rewrite <- Hy. symmetry.
    rewrite <- app_assoc. apply contains_app. }
  rewrite split_unfold, N by discriminate. cbn [index nth_error bind].
  apply partition_None in Hy.
  rewrite split_unfold, Hy by discriminate. reflexivity.
Qed.

End TruncatedFacts.
Import TruncatedFacts.

(** X11. When the answer is cut short inside the css block, so that its
    fence is never closed and no fence follows the css opener, and the html
    interior mentions neither marker and the cut css does not mention the
    stylesheet marker, the markup is still the trimmed interior of the html
    block and the stylesheet is everything after the css opener, trimmed. *)
Theorem extract_truncated (w0 w1 h w2 w3 c : str) :
  blank w0 = true -> blank w1 = true -> blank w2 = true ->
  blank w3 = true ->
  closes h = true ->
  contains HTML_marker h = false ->
  contains CSS_marker h = false ->
  contains CSS_marker c = false ->
  contains fence c = false ->
  extract (truncated w0 w1 h w2 w3 c) = Ok (strip h, strip c).
Proof.
  intros B0 B1 B2 B3 Ch Hh_html Hh_css Hc_css Hc_fence.
  assert (Cut : truncated w0 w1 h w2 w3 c
                = doc_before w0 w1 h w2 ++ CSS_marker ++ w3 ++ css_tag ++ c).
  { unfold truncated, doc_before. now rewrite <- !app_assoc. }
  unfold extract.
  assert (E1 : contains `"HTML:" (truncated w0 w1 h w2 w3 c) = true)
    by apply (contains_app w0 HTML_marker).
  assert (E2 : contains `"CSS:" (truncated w0 w1 h w2 w3 c) = true).
  { rewrite Cut. apply contains_app. }
  rewrite E1, E2. cbn [andb].
  assert (S : sections (truncated w0 w1 h w2 w3 c)
              = Ok ((fence ++ `"html") ++ h ++ fence,
                    (fence ++ `"css") ++ rstrip c)).
  { unfold sections. change `"CSS:" with CSS_marker.
    change `"HTML:" with HTML_marker.
    rewrite Cut, split_unfold, before_cut by (assumption || discriminate).
    assert (N : partition CSS_marker (w3 ++ css_tag ++ c) = None).
    { rewrite skip_CSS by now apply blank_avoids.
      rewrite (skip_CSS css_tag) by reflexivity.
      apply partition_None in Hc_css. now rewrite Hc_css. }
    rewrite split_unfold, N by discriminate.
    cbn [index nth_error bind].
    rewrite before_replace by assumption. do 2 f_equal.
    - rewrite app_assoc.
      replace (`"```html" ++ h ++ fence ++ w2)
        with (((fence ++ `"html") ++ h ++ fence) ++ w2)
        by (rewrite <- !app_assoc; reflexivity).
      rewrite strip_block; [reflexivity | | assumption].
      unfold blank. rewrite forallb_app. fold (blank w0) (blank w1).
      now rewrite B0, B1.
    - unfold strip. rewrite lstrip_blank by assumption.
      change (css_tag ++ c) with ("`"%char :: (`"``css" ++ c)).
      rewrite lstrip_solid by reflexivity.
      change ("`"%char :: (`"``css" ++ c)) with ((`"```cs" ++ ["s"%char]) ++ c).
      now rewrite rstrip_after_solid. }
  rewrite S. cbn [bind].
  change `"```html" with (fence ++ `"html").
  change `"```css" with (fence ++ `"css").
  rewrite !contains_startswith by apply startswith_app.
  rewrite fenced_block by (assumption || discriminate).
  rewrite fenced_unclosed;
    [| discriminate
     | exact (not_contains_inside _ _ _ (rstrip_inside c) Hc_fence)].
  cbn [bind]. now rewrite strip_rstrip.
Qed.

Lemma extract_truncated_witness :
  extract (truncated [] ["010"%char] `"<p>x</p>" ["010"%char]
             ["010"%char] `"p { color: r")
  = Ok (`"<p>x</p>", `"p { color: r").
Proof.
  apply (extract_truncated [] ["010"%char] `"<p>x</p>" ["010"%char]
           ["010"%char] `"p { color: r"); reflexivity.
Defined.

(** ** The classification of a failed attempt (lines 130-142) *)

Module ClassifyFacts.

Lemma lower_same_letter (c d : ascii) :
  lower_char c = c -> same_letter c d -> lower_char d = c.
Proof.
  intros Hc [-> | (H1 & H2 & H3)]; [exact Hc|].
  unfold lower_char.
  assert (E1 : (65 <=? nat_of_ascii d) = true) by (apply Nat.leb_le; lia).
  assert (E2 : (nat_of_ascii d <=? 90) = true) by (apply Nat.leb_le; lia).
  rewrite E1, E2. cbn [andb orb]. rewrite H3. apply ascii_nat_embedding.
Qed.

Lemma lower_case_variant (keyword variant : str) :
  (forall c, In c keyword -> lower_char c = c) ->
  case_variant keyword variant -> lower variant = keyword.
Proof.
  intros Hk H. induction H as [|c d k v Hcd _ IH]; [reflexivity|].
  cbn [lower map]. f_equal.
  - apply lower_same_letter; [|exact Hcd]. apply Hk. now left.
  - apply IH. intros c' Hc'. apply Hk. now right.
Qed.

(** The indicators are written in small letters, digits and spaces. *)
Lemma indicators_small (keyword : str) (c : ascii) :
  In keyword transient_keywords -> In c keyword -> lower_char c = c.
Proof.
  unfold transient_keywords. intros Hk Hc.
  repeat (destruct Hk as [<-|Hk];
          [repeat (destruct Hc as [<-|Hc]; [reflexivity|]); destruct Hc|]).
  destruct Hk.
Qed.

End ClassifyFacts.
Import ClassifyFacts.

Section Classification.

Context {World Response : Type} {P : Provider World Response}.

(** C6. A failed attempt is transient exactly when the lower-cased text of
    the error contains one of the five indicators, so in whatever mix of
    small and capital letters the error spells it.  Then the loop records
    the error, pauses and goes on: to the attempt on the next candidate, or
    out through its [else] clause after the last one.  On every other
    failure the error is raised again, without a pause and without a
    further attempt. *)
Theorem transient_iff_indicator (up m : str) (rest : list str)
    (st : loop_state) (e : Exception) (w : World) :
  generate_content (world st) m up = (inl e, w) ->
  (is_transient (str_of e) = true <->
   exists keyword,
     In keyword
        [ `"503"; `"overloaded"; `"unavailable"; `"not found"; `"404" ]
     /\ exists a b, lower (str_of e) = a ++ keyword ++ b) /\
  (forall keyword variant a b,
     In keyword
        [ `"503"; `"overloaded"; `"unavailable"; `"not found"; `"404" ] ->
     case_variant keyword variant ->
     str_of e = a ++ variant ++ b ->
     is_transient (str_of e) = true) /\
  (is_transient (str_of e) = true ->
     for_loop (m :: rest) up st
     = for_loop rest up
         {| response := response st;
            last_error := Some e;
            trace := trace st ++ [Call m; Sleep];
            world := w |} /\
     match rest with
     | [] =>
         for_loop (m :: rest) up st
         = (Else, {| response := response st;
                     last_error := Some e;
                     trace := trace st ++ [Call m; Sleep];
                     world := w |})
     | next :: _ =>
         exists t,
           trace (snd (for_loop (m :: rest) up st))
           = trace st ++ [Call m; Sleep; Call next] ++ t
     end) /\
  (is_transient (str_of e) = false ->
     for_loop (m :: rest) up st
     = (Raised e, {| response := response st;
                     last_error := Some e;
                     trace := trace st ++ [Call m];
                     world := w |})).
Proof.
  intros H. split; [apply is_transient_spec|]. split; [|split].
  - intros k v a b Hin Hv E. apply is_transient_spec. exists k.
    split; [exact Hin|]. exists (lower a), (lower b).
    rewrite E, !lower_app. do 2 f_equal.
    apply lower_case_variant; [|exact Hv].
    intros c. now apply indicators_small.
  - intros T.
    assert (E : for_loop (m :: rest) up st
                = for_loop rest up (paused st m e w))
      by now apply for_loop_transient.
    split; [exact E|]. destruct rest as [|next rest']; [exact E|].
    rewrite E.
    pose proof (for_loop_trace up (next :: rest') (paused st m e w)) as Tr.
    destruct (for_loop (next :: rest') up (paused st m e w))
      as [[| |e'] st']; cbn [snd].
    + destruct Tr as (k & m' & Hk & ->). cbn [paused trace].
      destruct k as [|k].
      * injection Hk as <-. exists []. cbn [firstn pauses flat_map app].
        now rewrite <- app_assoc.
      * exists (Sleep :: pauses (firstn k rest') ++ [Call m']).
        cbn [firstn pauses flat_map app]. now rewrite <- app_assoc.
    + rewrite Tr. cbn [paused trace]. exists (Sleep :: pauses rest').
      cbn [pauses flat_map app]. now rewrite <- app_assoc.
    + destruct Tr as (k & m' & Hk & ->). cbn [paused trace].
      destruct k as [|k].
      * injection Hk as <-. exists []. cbn [firstn pauses flat_map app].
        now rewrite <- app_assoc.
      * exists (Sleep :: pauses (firstn k rest') ++ [Call m']).
        cbn [firstn pauses flat_map app]. now rewrite <- app_assoc.
  - intros T. now apply for_loop_fatal.
Qed.

End Classification.

Lemma transient_iff_indicator_witness :
  is_transient (str_of unavailable_error) = true /\
  for_loop (P := scripted [inl unavailable_error; inr bakery_answer])
    [ `"gemini-1.5-flash-latest"; `"gemini-1.5-flash" ]
    (user_prompt bakery) (init_state 0)
  = (Break,
     {| response := Some bakery_answer;
        last_error := Some unavailable_error;
        trace := [ Call `"gemini-1.5-flash-latest"; Sleep;
                   Call `"gemini-1.5-flash" ];
        world := 2 |}).
Proof.
  assert (T : is_transient (str_of unavailable_error) = true)
    by reflexivity.
  split; [exact T|].
  destruct (transient_iff_indicator
              (P := scripted [inl unavailable_error; inr bakery_answer])
              (user_prompt bakery) `"gemini-1.5-flash-latest"
              [ `"gemini-1.5-flash" ] (init_state 0) unavailable_error 1
              eq_refl)
    as (_ & _ & C & _).
  rewrite (proj1 (C T)). reflexivity.
Defined.
